(** * A shallow embedding of the statsd client (package statsd)

    The tag set with its two wire dialects, the option builder and the
    client facade follow the Go sources ([statsd.go] and the options/tags
    file).  The connection ([conn], its buffer and its flush logic) is not
    part of the available sources; it is modelled from the design document
    and every such definition says so. *)

From Stdlib Require Import ZArith String Ascii List Lia Bool.
From stdpp Require Import base option list gmap strings pretty.

Open Scope string_scope.
Open Scope Z_scope.

(** ** Outcomes of Go calls

    A Go call either returns or panics. *)

Inductive result (A : Type) : Type :=
| Ok (a : A)
| Panic (msg : string).
Arguments Ok {A} a.
Arguments Panic {A} msg.

Global Instance result_ret : MRet result := fun A a => Ok a.
Global Instance result_bind : MBind result := fun A B f r =>
  match r with
  | Ok a => f a
  | Panic m => Panic m
  end.

Definition panic_odd_newTags : string :=
  "statsd: newTags only accepts an even number of arguments".
Definition panic_odd_Tags : string :=
  "statsd: Tags only accepts an even number of arguments".
Definition panic_index : string := "runtime error: index out of range".
Definition panic_nil : string :=
  "runtime error: invalid memory address or nil pointer dereference".

(** ** Go primitives used by the sources *)

(** [s[i]] on a slice: panics outside [0, len(s)). *)
Definition index {A} (s : list A) (i : Z) : result A :=
  if i <? 0 then Panic panic_index
  else match s !! Z.to_nat i with
       | Some x => Ok x
       | None => Panic panic_index
       end.

(** [s[i] = x] on a slice: panics outside [0, len(s)). *)
Definition set_index {A} (s : list A) (i : Z) (x : A) : result (list A) :=
  if (i <? 0) || (Z.of_nat (length s) <=? i) then Panic panic_index
  else Ok (<[Z.to_nat i := x]> s).

(** [m[k]] on a [map[string]string]: the zero value when [k] is absent. *)
Definition map_get (m : gmap string string) (k : string) : string :=
  default "" (m !! k).

(** [strings.HasSuffix] and [strings.TrimSuffix]. *)
Definition HasSuffix (s suffix : string) : bool :=
  (String.length suffix <=? String.length s)%nat
  && String.eqb
       (substring (String.length s - String.length suffix)
                  (String.length suffix) s)
       suffix.

Definition TrimSuffix (s suffix : string) : string :=
  if HasSuffix s suffix
  then substring 0 (String.length s - String.length suffix) s
  else s.

(** ** Tags *)

Record Tags : Type := mkTags {
  kvs : gmap string string;
  keys : list string
}.

Definition emptyTags : Tags := mkTags ∅ [].

(** The loop of [newTags]: [n] iterations remain, [i] is the loop counter. *)
Fixpoint newTags_loop (tags : list string) (n : nat) (i : Z)
    (newTags : gmap string string) (tagKeys : list string) : result Tags :=
  match n with
  | O => Ok (mkTags newTags tagKeys)
  | S n' =>
      k ← index tags (Z.shiftl i 1);
      v ← index tags (1 + Z.shiftl i 1);
      tagKeys' ← set_index tagKeys i k;
      newTags_loop tags n' (i + 1) (<[k := v]> newTags) tagKeys'
  end.

Definition newTags (tags : list string) : result Tags :=
  let len := Z.of_nat (length tags) in
  if Z.land len 1 =? 1 then Panic panic_odd_newTags
  else if len =? 0 then Ok emptyTags
  else
    let numTags := Z.shiftr len 1 in
    newTags_loop tags (Z.to_nat numTags) 0 ∅
                 (replicate (Z.to_nat numTags) "").

(** One iteration of the loop of [Tags.append]. *)
Definition append_step (that_kvs : gmap string string) (this : Tags)
    (k : string) : Tags :=
  match kvs this !! k with
  | Some _ => this
  | None => mkTags (<[k := map_get that_kvs k]> (kvs this)) (keys this ++ [k])
  end.

Definition Tags_append (this that : Tags) : Tags :=
  foldl (append_step (kvs that)) this (keys that).

Definition Tags_numTags (this : Tags) : Z := Z.of_nat (length (keys this)).

(** The loop of [Tags.clone] over [range this.keys], from index [i]. *)
Fixpoint clone_loop (src : gmap string string) (ks : list string) (i : Z)
    (kvs' : gmap string string) (keys' : list string) : result Tags :=
  match ks with
  | [] => Ok (mkTags kvs' keys')
  | k :: rest =>
      keys'' ← set_index keys' i k;
      clone_loop src rest (i + 1) (<[k := map_get src k]> kvs') keys''
  end.

Definition Tags_clone (this : Tags) : result Tags :=
  let numTags := Tags_numTags this in
  clone_loop (kvs this) (keys this) 0 ∅ (replicate (Z.to_nat numTags) "").

Definition TagFormat : Type := Z.
Definition InfluxDB : TagFormat := 1.
Definition Datadog : TagFormat := 2.

Definition influx_step (m : gmap string string) (buf k : string) : string :=
  (((buf +:+ ",") +:+ k) +:+ "=") +:+ map_get m k.

Definition datadog_step (m : gmap string string) (buf k : string) : string :=
  (((buf +:+ k) +:+ ":") +:+ map_get m k) +:+ ",".

Definition Tags_format (this : Tags) (tf : TagFormat) : string :=
  if Tags_numTags this =? 0 then ""
  else if tf =? InfluxDB then foldl (influx_step (kvs this)) "" (keys this)
  else if tf =? Datadog then
    TrimSuffix (foldl (datadog_step (kvs this)) "|#" (keys this)) ","
  else "".

(** ** [TagFormat.split] *)

Definition panic_slice : string := "runtime error: slice bounds out of range".

(** [s[i:]] on a string: panics when [i] is beyond [len(s)]. *)
Definition slice_from (s : string) (i : nat) : result string :=
  if (String.length s <? i)%nat then Panic panic_slice
  else Ok (substring i (String.length s - i) s).

(** [strings.Split(s, sep)] for a separator of one byte, which is how the
    source calls it: the pieces of [s] between the separators, in order;
    a string without separator is its own single piece. *)
Fixpoint Split (s : string) (sep : ascii) : list string :=
  match s with
  | EmptyString => [""]
  | String a s' =>
      if Ascii.eqb a sep then "" :: Split s' sep
      else match Split s' sep with
           | piece :: rest => String a piece :: rest
           | [] => [String a ""]
           end
  end.

(** The loop of [split] over [range pairs], from index [i]:
    [kv := strings.Split(pair, sep); tags[kv[0]] = kv[1]; keys[i] = kv[0]]. *)
Fixpoint split_loop (sep : ascii) (pairs : list string) (i : Z)
    (tags : gmap string string) (keys' : list string) : result Tags :=
  match pairs with
  | [] => Ok (mkTags tags keys')
  | p :: rest =>
      let kv := Split p sep in
      k ← index kv 0;
      v ← index kv 1;
      k' ← index kv 0;
      keys'' ← set_index keys' i k';
      split_loop sep rest (i + 1) (<[k := v]> tags) keys''
  end.

Definition TagFormat_split (tf : TagFormat) (s : string) : result Tags :=
  if Z.of_nat (String.length s) =? 0 then Ok emptyTags
  else if tf =? InfluxDB then
    s' ← slice_from s 1;
    let pairs := Split s' ","%char in
    split_loop "="%char pairs 0 ∅ (replicate (length pairs) "")
  else if tf =? Datadog then
    s' ← slice_from s 2;
    let pairs := Split s' ","%char in
    split_loop ":"%char pairs 0 ∅ (replicate (length pairs) "")
  else Ok emptyTags.

(** ** float32

    A [float32] is carried as its IEEE-754 single-precision bit pattern
    (an integer in [0, 2^32)); comparisons are the IEEE ones: a NaN compares
    false with everything and the two zeros are equal. *)

Definition float32 : Type := Z.
Definition f32_one : float32 := 0x3F800000.

Definition f32_mag (b : float32) : Z := Z.land b 0x7FFFFFFF.
Definition f32_isNaN (b : float32) : bool := 0x7F800000 <? f32_mag b.
Definition f32_key (b : float32) : Z :=
  if Z.testbit b 31 then - f32_mag b else f32_mag b.
Definition f32_eqb (a b : float32) : bool :=
  negb (f32_isNaN a) && negb (f32_isNaN b) && (f32_key a =? f32_key b).
Definition f32_ltb (a b : float32) : bool :=
  negb (f32_isNaN a) && negb (f32_isNaN b) && (f32_key a <? f32_key b).

(** ** Memory and the network endpoint

    [*Tags] and [*conn] are addresses into two stores; [None] is [nil]. *)

Definition loc : Type := nat.
Definition error : Type := string.
(** A [func(error)] value, named by an identifier. *)
Definition handler : Type := nat.

(** The [net.Conn] behind [conn.w]: every payload handed to [Write], in
    call order, and whether [Close] has been called on it. *)
Record writer : Type := mkWriter {
  w_writes : list string;
  w_closed : bool
}.

Definition err_closed_conn : error := "use of closed network connection".

Definition w_Write (p : string) (w : writer) : writer * option error :=
  (mkWriter (w_writes w ++ [p]) (w_closed w),
   if w_closed w then Some err_closed_conn else None).

Definition w_Close (w : writer) : writer * option error :=
  (mkWriter (w_writes w) true,
   if w_closed w then Some err_closed_conn else None).

(** Modelled from the spec: the [conn] struct (its file is not in the
    sources).  The facade names its fields [tagFormat], [closed] and [w]
    (and the lock [mu], which a sequential run never observes); the
    outbound buffer, the maximum packet size and the error handler are the
    transport's state in the design document; [conn_handled] lists the
    errors passed to the handler. *)
Record conn : Type := mkConn {
  conn_tagFormat : TagFormat;
  conn_closed : bool;
  conn_w : writer;
  conn_buf : string;
  conn_maxPacketSize : Z;
  conn_errorHandler : option handler;
  conn_handled : list error
}.

Record world : Type := mkWorld {
  tagsHeap : gmap loc Tags;
  connHeap : gmap loc conn
}.

(** Go code over the stores: the store survives a panic. *)
Definition M (A : Type) : Type := world -> world * result A.

Global Instance M_ret : MRet M := fun A a w => (w, Ok a).
Global Instance M_bind : MBind M := fun A B f m w =>
  match m w with
  | (w', Ok a) => f a w'
  | (w', Panic msg) => (w', Panic msg)
  end.

Definition lift {A} (r : result A) : M A := fun w => (w, r).

(** Dereferencing: [nil] panics.  (An address outside the store does not
    arise in Go and is treated like [nil].) *)
Definition load_tags (p : option loc) : M Tags := fun w =>
  match p with
  | Some l => match tagsHeap w !! l with
              | Some t => (w, Ok t)
              | None => (w, Panic panic_nil)
              end
  | None => (w, Panic panic_nil)
  end.

Definition store_tags (l : loc) (t : Tags) : M unit := fun w =>
  (mkWorld (<[l := t]> (tagsHeap w)) (connHeap w), Ok tt).

Definition alloc_tags (t : Tags) : M loc := fun w =>
  let l := fresh (dom (tagsHeap w)) in
  (mkWorld (<[l := t]> (tagsHeap w)) (connHeap w), Ok l).

Definition load_conn (p : option loc) : M conn := fun w =>
  match p with
  | Some l => match connHeap w !! l with
              | Some cn => (w, Ok cn)
              | None => (w, Panic panic_nil)
              end
  | None => (w, Panic panic_nil)
  end.

(** Run [f] on the [conn] behind [p], in place. *)
Definition with_conn (p : option loc) (f : conn -> conn) : M unit := fun w =>
  match p with
  | Some l => match connHeap w !! l with
              | Some cn => (mkWorld (tagsHeap w) (<[l := f cn]> (connHeap w)), Ok tt)
              | None => (w, Panic panic_nil)
              end
  | None => (w, Panic panic_nil)
  end.

(** ** Configuration and options *)

Record clientConfig : Type := mkClientConfig {
  Client_Muted : bool;
  Client_Rate : float32;
  Client_Prefix : string;
  Client_Tags : option loc
}.

Record connConfig : Type := mkConnConfig {
  Conn_Addr : string;
  Conn_ErrorHandler : option handler;
  Conn_FlushPeriod : Z;
  Conn_MaxPacketSize : Z;
  Conn_Network : string;
  Conn_TagFormat : TagFormat
}.

Record config : Type := mkConfig {
  cfg_Conn : connConfig;
  cfg_Client : clientConfig
}.

(** An [Option] is one of the closures the option functions return, with
    the arguments it captured. *)
Inductive Option : Type :=
| Address (addr : string)
| ErrorHandler (h : option handler)
| FlushPeriod (p : Z)
| MaxPacketSize (n : Z)
| Network (network : string)
| Mute (b : bool)
| SampleRate (rate : float32)
| Prefix (p : string)
| TagsFormat (tf : TagFormat)
| CommonTags_func (tags : list string).

(** [CommonTags(tags...)]: the check made before the closure is built. *)
Definition CommonTags (tags : list string) : result Option :=
  if negb (Z.rem (Z.of_nat (length tags)) 2 =? 0) then Panic panic_odd_Tags
  else Ok (CommonTags_func tags).

Definition set_Conn (c : config) (f : connConfig -> connConfig) : config :=
  mkConfig (f (cfg_Conn c)) (cfg_Client c).
Definition set_Client (c : config) (f : clientConfig -> clientConfig) : config :=
  mkConfig (cfg_Conn c) (f (cfg_Client c)).

(** [o(conf)]: the body of each closure. *)
Definition apply_option (o : Option) (c : config) : M config :=
  match o with
  | Address addr =>
      mret (set_Conn c (fun k => mkConnConfig addr (Conn_ErrorHandler k)
              (Conn_FlushPeriod k) (Conn_MaxPacketSize k) (Conn_Network k)
              (Conn_TagFormat k)))
  | ErrorHandler h =>
      mret (set_Conn c (fun k => mkConnConfig (Conn_Addr k) h
              (Conn_FlushPeriod k) (Conn_MaxPacketSize k) (Conn_Network k)
              (Conn_TagFormat k)))
  | FlushPeriod p =>
      mret (set_Conn c (fun k => mkConnConfig (Conn_Addr k)
              (Conn_ErrorHandler k) p (Conn_MaxPacketSize k) (Conn_Network k)
              (Conn_TagFormat k)))
  | MaxPacketSize n =>
      mret (set_Conn c (fun k => mkConnConfig (Conn_Addr k)
              (Conn_ErrorHandler k) (Conn_FlushPeriod k) n (Conn_Network k)
              (Conn_TagFormat k)))
  | Network network =>
      mret (set_Conn c (fun k => mkConnConfig (Conn_Addr k)
              (Conn_ErrorHandler k) (Conn_FlushPeriod k) (Conn_MaxPacketSize k)
              network (Conn_TagFormat k)))
  | Mute b =>
      mret (set_Client c (fun k => mkClientConfig b (Client_Rate k)
              (Client_Prefix k) (Client_Tags k)))
  | SampleRate rate =>
      mret (set_Client c (fun k => mkClientConfig (Client_Muted k) rate
              (Client_Prefix k) (Client_Tags k)))
  | Prefix p =>
      mret (set_Client c (fun k => mkClientConfig (Client_Muted k)
              (Client_Rate k)
              (Client_Prefix k +:+ (TrimSuffix p "." +:+ "."))
              (Client_Tags k)))
  | TagsFormat tf =>
      mret (set_Conn c (fun k => mkConnConfig (Conn_Addr k)
              (Conn_ErrorHandler k) (Conn_FlushPeriod k) (Conn_MaxPacketSize k)
              (Conn_Network k) tf))
  | CommonTags_func tags =>
      if Z.of_nat (length tags) =? 0 then mret c
      else
        newCommonTags ← lift (newTags tags);
        this ← load_tags (Client_Tags (cfg_Client c));
        match Client_Tags (cfg_Client c) with
        | Some l =>
            _ ← store_tags l (Tags_append this newCommonTags);
            mret c
        | None => lift (Panic panic_nil)
        end
  end.

(** [for _, o := range opts { o(conf) }] *)
Fixpoint apply_options (opts : list Option) (c : config) : M config :=
  match opts with
  | [] => mret c
  | o :: rest => c' ← apply_option o c; apply_options rest c'
  end.

(** ** The connection (transport) *)

Definition set_buf (cn : conn) (b : string) : conn :=
  mkConn (conn_tagFormat cn) (conn_closed cn) (conn_w cn) b
         (conn_maxPacketSize cn) (conn_errorHandler cn) (conn_handled cn).
Definition set_w (cn : conn) (w : writer) : conn :=
  mkConn (conn_tagFormat cn) (conn_closed cn) w (conn_buf cn)
         (conn_maxPacketSize cn) (conn_errorHandler cn) (conn_handled cn).
Definition set_closed (cn : conn) (b : bool) : conn :=
  mkConn (conn_tagFormat cn) b (conn_w cn) (conn_buf cn)
         (conn_maxPacketSize cn) (conn_errorHandler cn) (conn_handled cn).

(** Go's [len] of a string. *)
Definition len (s : string) : Z := Z.of_nat (String.length s).

(** Modelled from the spec: the newline that ends every buffered line (the
    transport's file is not in the sources). *)
Definition separator : string := String "010"%char EmptyString.

(** Modelled from the spec: [conn.handleError] (not in the sources): a
    failure is passed to the configured handler; without a handler it is
    discarded. *)
Definition handleError (err : option error) (cn : conn) : conn :=
  match err, conn_errorHandler cn with
  | Some e, Some _ =>
      mkConn (conn_tagFormat cn) (conn_closed cn) (conn_w cn) (conn_buf cn)
             (conn_maxPacketSize cn) (conn_errorHandler cn)
             (conn_handled cn ++ [e])
  | _, _ => cn
  end.

(** Modelled from the spec: one packet written by the transport (not in
    the sources): [c.w.Write(p)], then the report of its error. *)
Definition write_packet (p : string) (cn : conn) : conn :=
  let '(w', err) := w_Write p (conn_w cn) in
  handleError err (set_w cn w').

(** Modelled from the spec: [conn.flush] (not in the sources): writes the
    buffer's bytes to the socket if the buffer is non-empty, then clears it;
    a flush of an empty buffer does nothing, and neither does any operation
    on a closed connection. *)
Definition flush (force : Z) (cn : conn) : conn :=
  if conn_closed cn then cn
  else if len (conn_buf cn) =? 0 then cn
  else set_buf (write_packet (conn_buf cn) cn) "".

(** Modelled from the spec: steps 3 to 5 of the transport's [emit] (the
    buffering half of [conn.metric], not in the sources), on a line already
    formatted.
    - 3: appending the line plus separator would exceed the maximum and the
      buffer is non-empty: flush the buffer first, then go on with a fresh
      buffer;
    - 4: the line alone exceeds the maximum: it is written standalone (as
      the buffer would hold it, with its separator), not buffered;
    - 5: otherwise the line plus separator is appended to the buffer. *)
Definition emit (line : string) (cn : conn) : conn :=
  if conn_closed cn then cn
  else
    let l := line +:+ separator in
    let cn1 :=
      if (conn_maxPacketSize cn <? len (conn_buf cn) + len l)
         && negb (len (conn_buf cn) =? 0)
      then flush 0 cn else cn in
    if conn_maxPacketSize cn <? len line then write_packet l cn1
    else set_buf cn1 (conn_buf cn1 +:+ l).

(** What [Client.Close] does between [Lock] and [Unlock]:
    [c.conn.flush(0)], [c.conn.handleError(c.conn.w.Close())],
    [c.conn.closed = true]. *)
Definition Close_locked (cn : conn) : conn :=
  let cn1 := flush 0 cn in
  let '(w', err) := w_Close (conn_w cn1) in
  set_closed (handleError err (set_w cn1 w')) true.

(** The values a metric is called with ([interface{}] in the source). *)
Inductive Value : Type :=
| VInt (n : Z)
| VFloat (bits : Z).

Record Client : Type := mkClient {
  c_conn : option loc;
  c_muted : bool;
  c_rate : float32;
  c_prefix : string;
  c_tags : option loc;
  c_tagFormat : TagFormat
}.

(** [c.muted || (c.rate != 1 && randFloat() > c.rate)], where [r] is what
    [randFloat()] returns when it is called. *)
Definition skip (c : Client) (r : float32) : bool :=
  c_muted c || (negb (f32_eqb (c_rate c) f32_one) && f32_ltb (c_rate c) r).

Section Facade.

(** What the transport's file decides: how a value and a sample rate are
    printed, and what [newConn] does with the configuration. *)
Variable render_value : Value -> string.
Variable render_rate : float32 -> string.
Variable newConn : connConfig -> bool -> M (option loc * option error).

(** Modelled from the spec: step 1 of [emit], the wire line
    [<prefix><bucket>:<value>|<type>[|@<rate>]] with the tag suffix spliced
    after the bucket name for InfluxDB and at the end of the line
    otherwise. *)
Definition wire_line (tf : TagFormat) (prefix bucket value typ : string)
    (rate : float32) (tags : string) : string :=
  prefix +:+ bucket +:+ (if tf =? InfluxDB then tags else "")
  +:+ ":" +:+ value +:+ "|" +:+ typ
  +:+ (if f32_ltb rate f32_one then "|@" +:+ render_rate rate else "")
  +:+ (if tf =? InfluxDB then "" else tags).

(** Modelled from the spec: [conn.metric] (not in the sources) formats
    one line and emits it. *)
Definition conn_metric (p : option loc) (prefix bucket : string) (n : Value)
    (typ : string) (rate : float32) (tags : string) : M unit :=
  with_conn p (fun cn =>
    emit (wire_line (conn_tagFormat cn) prefix bucket (render_value n) typ
                    rate tags) cn).

(** Modelled from the spec: [conn.gauge] (not in the sources): a metric of
    type [g], sent without a sample rate. *)
Definition conn_gauge (p : option loc) (prefix bucket : string) (value : Value)
    (tags : string) : M unit :=
  with_conn p (fun cn =>
    emit (wire_line (conn_tagFormat cn) prefix bucket (render_value value) "g"
                    f32_one tags) cn).

(** Modelled from the spec: [conn.unique] (not in the sources): a metric
    of type [s] whose value is a string, sent without a sample rate. *)
Definition conn_unique (p : option loc) (prefix bucket value tags : string)
    : M unit :=
  with_conn p (fun cn =>
    emit (wire_line (conn_tagFormat cn) prefix bucket value "s" f32_one tags)
         cn).

Definition default_config (tags : option loc) : config :=
  mkConfig (mkConnConfig ":8125" None (100 * 1000000) 1440 "udp" 0)
           (mkClientConfig false f32_one "" tags).

Definition New (opts : list Option) : M (Client * option error) :=
  tl ← alloc_tags emptyTags;
  conf ← apply_options opts (default_config (Some tl));
  r ← newConn (cfg_Conn conf) (Client_Muted (cfg_Client conf));
  let c := mkClient r.1 (Client_Muted (cfg_Client conf)) 0 "" None 0 in
  match r.2 with
  | Some err => mret (mkClient (c_conn c) true 0 "" None 0, Some err)
  | None =>
      mret (mkClient (c_conn c) (c_muted c) (Client_Rate (cfg_Client conf))
                     (Client_Prefix (cfg_Client conf)) (Client_Tags (cfg_Client conf))
                     (Conn_TagFormat (cfg_Conn conf)),
            None)
  end.

Definition Clone (c : Client) (opts : list Option) : M Client :=
  cn ← load_conn (c_conn c);
  let tf := conn_tagFormat cn in
  conf ← apply_options opts
           (mkConfig (mkConnConfig "" None 0 0 "" 0)
                     (mkClientConfig false (c_rate c) (c_prefix c) (c_tags c)));
  t ← load_tags (Client_Tags (cfg_Client conf));
  t' ← lift (Tags_clone t);
  tl' ← alloc_tags t';
  mret (mkClient (c_conn c) (c_muted c || Client_Muted (cfg_Client conf))
                 (Client_Rate (cfg_Client conf)) (Client_Prefix (cfg_Client conf))
                 (Some tl') tf).

Definition Count (c : Client) (bucket : string) (n : Value)
    (metricTags : list string) (r : float32) : M unit :=
  if skip c r then mret tt
  else
    mTags ← lift (newTags metricTags);
    that ← load_tags (c_tags c);
    conn_metric (c_conn c) (c_prefix c) bucket n "c" (c_rate c)
                (Tags_format (Tags_append mTags that) (c_tagFormat c)).

Definition Increment (c : Client) (bucket : string)
    (metricTags : list string) (r : float32) : M unit :=
  Count c bucket (VInt 1) metricTags r.

Definition Gauge (c : Client) (bucket : string) (value : Value)
    (metricTags : list string) (r : float32) : M unit :=
  if skip c r then mret tt
  else
    mTags ← lift (newTags metricTags);
    that ← load_tags (c_tags c);
    conn_gauge (c_conn c) (c_prefix c) bucket value
               (Tags_format (Tags_append mTags that) (c_tagFormat c)).

Definition Timing (c : Client) (bucket : string) (value : Value)
    (r : float32) : M unit :=
  if skip c r then mret tt
  else
    this ← load_tags (c_tags c);
    conn_metric (c_conn c) (c_prefix c) bucket value "ms" (c_rate c)
                (Tags_format this (c_tagFormat c)).

Definition Histogram (c : Client) (bucket : string) (value : Value)
    (metricTags : list string) (r : float32) : M unit :=
  if skip c r then mret tt
  else
    mTags ← lift (newTags metricTags);
    that ← load_tags (c_tags c);
    conn_metric (c_conn c) (c_prefix c) bucket value "h" (c_rate c)
                (Tags_format (Tags_append mTags that) (c_tagFormat c)).

Definition Unique (c : Client) (bucket value : string) (r : float32)
    : M unit :=
  if skip c r then mret tt
  else
    this ← load_tags (c_tags c);
    conn_unique (c_conn c) (c_prefix c) bucket value
                (Tags_format this (c_tagFormat c)).

Definition Flush (c : Client) : M unit :=
  if c_muted c then mret tt
  else with_conn (c_conn c) (flush 0).

Definition Close (c : Client) : M unit :=
  if c_muted c then mret tt
  else with_conn (c_conn c) Close_locked.

(** The calls a program makes on one Client. *)
Inductive Op : Type :=
| OpCount (bucket : string) (n : Value) (metricTags : list string) (r : float32)
| OpIncrement (bucket : string) (metricTags : list string) (r : float32)
| OpGauge (bucket : string) (value : Value) (metricTags : list string) (r : float32)
| OpTiming (bucket : string) (value : Value) (r : float32)
| OpHistogram (bucket : string) (value : Value) (metricTags : list string) (r : float32)
| OpUnique (bucket value : string) (r : float32)
| OpFlush
| OpClose.

Definition run_op (c : Client) (op : Op) : M unit :=
  match op with
  | OpCount b n ts r => Count c b n ts r
  | OpIncrement b ts r => Increment c b ts r
  | OpGauge b v ts r => Gauge c b v ts r
  | OpTiming b v r => Timing c b v r
  | OpHistogram b v ts r => Histogram c b v ts r
  | OpUnique b v r => Unique c b v r
  | OpFlush => Flush c
  | OpClose => Close c
  end.

Fixpoint run_ops (c : Client) (ops : list Op) : M unit :=
  match ops with
  | [] => mret tt
  | op :: rest => _ ← run_op c op; run_ops c rest
  end.

End Facade.

(** ** Descriptions the theorems compare the code with *)

(** The keys of a list of [k1; v1; k2; v2; ...] and the map it denotes
    (a later pair overrides an earlier one with the same key). *)
Fixpoint pairs_keys (tags : list string) : list string :=
  match tags with
  | k :: _ :: rest => k :: pairs_keys rest
  | _ => []
  end.

Fixpoint pairs_kvs (m : gmap string string) (tags : list string)
    : gmap string string :=
  match tags with
  | k :: v :: rest => pairs_kvs (<[k := v]> m) rest
  | _ => m
  end.

(** One tag in each dialect. *)
Definition influx_item (m : gmap string string) (k : string) : string :=
  "," +:+ k +:+ "=" +:+ map_get m k.
Definition datadog_item (m : gmap string string) (k : string) : string :=
  k +:+ ":" +:+ map_get m k.

(** The map [Tags.clone] builds from the keys it walks. *)
Definition clone_kvs (src : gmap string string) (ks : list string)
    : gmap string string :=
  foldl (fun acc k => <[k := map_get src k]> acc) ∅ ks.

(** An option value exists only if its option function returned it. *)
Definition built (o : Option) : Prop :=
  match o with
  | CommonTags_func tags => CommonTags tags = Ok o
  | _ => True
  end.

(** What a list of options leaves in [conf.Client.Muted], starting from
    [b]: the argument of the last [Mute]. *)
Definition Muted_after (b : bool) (opts : list Option) : bool :=
  foldl (fun acc o => match o with Mute b' => b' | _ => acc end) b opts.
Definition Muted_option (opts : list Option) : bool := Muted_after false opts.

(** [p] with a dot appended unless it already ends with one. *)
Definition dotted (p : string) : string :=
  if HasSuffix p "." then p else p +:+ ".".

(** The dotted arguments of the [Prefix] options, in order. *)
Fixpoint Prefix_options (opts : list Option) : string :=
  match opts with
  | [] => ""
  | Prefix p :: rest => dotted p +:+ Prefix_options rest
  | _ :: rest => Prefix_options rest
  end.

Definition has_Prefix (o : Option) : bool :=
  match o with Prefix _ => true | _ => false end.

(** What a list of options leaves in [conf.Client.Rate], starting from
    [r]. *)
Definition Rate_after (r : float32) (opts : list Option) : float32 :=
  foldl (fun acc o => match o with SampleRate r' => r' | _ => acc end) r opts.

(** What the [CommonTags] options of a list do to the tag set they are
    applied to. *)
Definition tags_after (opts : list Option) (t : Tags) : Tags :=
  foldl (fun acc o =>
           match o with
           | CommonTags_func tags =>
               Tags_append acc (mkTags (pairs_kvs ∅ tags) (pairs_keys tags))
           | _ => acc
           end) t opts.

(** A Client whose connection and tag set are allocated, as [New] (without
    error) and [Clone] return them. *)
Definition live (c : Client) (w : world) : Prop :=
  (exists l cn, c_conn c = Some l /\ connHeap w !! l = Some cn)
  /\ (exists l t, c_tags c = Some l /\ tagsHeap w !! l = Some t).

(** The payloads written so far to the socket of the connection at [l]. *)
Definition net_writes (w : world) (l : loc) : list string :=
  match connHeap w !! l with
  | Some cn => w_writes (conn_w cn)
  | None => []
  end.

(** Every metric-tag list of the call has an even length. *)
Definition even_tags (op : Op) : Prop :=
  match op with
  | OpCount _ _ ts _ | OpIncrement _ ts _ | OpGauge _ _ ts _
  | OpHistogram _ _ ts _ => Nat.even (length ts) = true
  | _ => True
  end.

(** A string that ends with one dot and not with two. *)
Definition one_trailing_dot (s : string) : bool :=
  HasSuffix s "." && negb (HasSuffix s "..").

(** The Clients obtained from [c] by cloning, any number of times. *)
Inductive clone_of (c : Client) : Client -> Prop :=
| clone_of_self : clone_of c c
| clone_of_Clone (d d' : Client) (opts : list Option) (w w' : world) :
    clone_of c d -> Clone d opts w = (w', Ok d') -> clone_of c d'.


(** The key list of a tag set names exactly the keys its map holds. *)
Definition Tags_wf (t : Tags) : Prop :=
  forall k, k ∈ keys t <-> is_Some (kvs t !! k).

(** No byte of [s] is [c]. *)
Fixpoint free_of (c : ascii) (s : string) : bool :=
  match s with
  | EmptyString => true
  | String a s' => negb (Ascii.eqb a c) && free_of c s'
  end.

(** What one option does to the connection half of a configuration. *)
Definition conn_update (k : connConfig) (o : Option) : connConfig :=
  match o with
  | Address addr =>
      mkConnConfig addr (Conn_ErrorHandler k) (Conn_FlushPeriod k)
                   (Conn_MaxPacketSize k) (Conn_Network k) (Conn_TagFormat k)
  | ErrorHandler h =>
      mkConnConfig (Conn_Addr k) h (Conn_FlushPeriod k)
                   (Conn_MaxPacketSize k) (Conn_Network k) (Conn_TagFormat k)
  | FlushPeriod p =>
      mkConnConfig (Conn_Addr k) (Conn_ErrorHandler k) p
                   (Conn_MaxPacketSize k) (Conn_Network k) (Conn_TagFormat k)
  | MaxPacketSize n =>
      mkConnConfig (Conn_Addr k) (Conn_ErrorHandler k) (Conn_FlushPeriod k)
                   n (Conn_Network k) (Conn_TagFormat k)
  | Network network =>
      mkConnConfig (Conn_Addr k) (Conn_ErrorHandler k) (Conn_FlushPeriod k)
                   (Conn_MaxPacketSize k) network (Conn_TagFormat k)
  | TagsFormat tf =>
      mkConnConfig (Conn_Addr k) (Conn_ErrorHandler k) (Conn_FlushPeriod k)
                   (Conn_MaxPacketSize k) (Conn_Network k) tf
  | _ => k
  end.

(** What a list of options leaves in [conf.Conn], starting from [k]. *)
Definition Conn_after (k : connConfig) (opts : list Option) : connConfig :=
  foldl conn_update k opts.

(** The options that only set a field of [conf.Conn]. *)
Definition is_conn_option (o : Option) : bool :=
  match o with
  | Address _ | ErrorHandler _ | FlushPeriod _ | MaxPacketSize _
  | Network _ | TagsFormat _ => true
  | _ => false
  end.

Fixpoint client_options (opts : list Option) : list Option :=
  match opts with
  | [] => []
  | o :: rest =>
      if is_conn_option o then client_options rest
      else o :: client_options rest
  end.

(** A program over several Clients: a call on the [i]-th Client of the
    pool, or a [Clone] of it whose result joins the pool.  (A step that
    names no Client of the pool is not a call and is passed over.) *)
Inductive Step : Type :=
| StepOp (i : nat) (op : Op)
| StepClone (i : nat) (opts : list Option).

Fixpoint run_steps (render_value : Value -> string)
    (render_rate : float32 -> string) (pool : list Client)
    (steps : list Step) : M (list Client) :=
  match steps with
  | [] => mret pool
  | StepOp i op :: rest =>
      match pool !! i with
      | Some c =>
          _ ← run_op render_value render_rate c op;
          run_steps render_value render_rate pool rest
      | None => run_steps render_value render_rate pool rest
      end
  | StepClone i opts :: rest =>
      match pool !! i with
      | Some c =>
          d ← Clone c opts;
          run_steps render_value render_rate (pool ++ [d]) rest
      | None => run_steps render_value render_rate pool rest
      end
  end.

(** Even metric-tag lists, options built by the option functions. *)
Definition step_ok (s : Step) : Prop :=
  match s with
  | StepOp _ op => even_tags op
  | StepClone _ opts => Forall built opts
  end.

Definition is_Close (s : Step) : bool :=
  match s with
  | StepOp _ OpClose => true
  | _ => false
  end.

(** A Client on the connection at [l] whose tag set is allocated. *)
Definition on_connection (l : loc) (w : world) (c : Client) : Prop :=
  c_conn c = Some l
  /\ exists tl, c_tags c = Some tl /\ is_Some (tagsHeap w !! tl).

(** The connection at [l] is marked closed. *)
Definition closed_at (w : world) (l : loc) : Prop :=
  exists cn, connHeap w !! l = Some cn /\ conn_closed cn = true.

(** ** Concrete instances used by the examples *)

Module Ex.

Definition render_value (v : Value) : string :=
  match v with
  | VInt n => pretty n
  | VFloat _ => "0"
  end.
Definition render_rate (r : float32) : string := "0.5".

(** A [newConn] whose dial fails: it hands back a connection object
    together with the error. *)
Definition newConn_refused (k : connConfig) (muted : bool)
    : M (option loc * option error) := fun w =>
  let l := fresh (dom (connHeap w)) in
  (mkWorld (tagsHeap w)
           (<[l := mkConn (Conn_TagFormat k) false (mkWriter [] false) ""
                          (Conn_MaxPacketSize k) (Conn_ErrorHandler k) []]>
              (connHeap w)),
   Ok (Some l, Some "dial udp: connection refused")).

Definition conn0 : conn :=
  mkConn Datadog false (mkWriter [] false) "" 1440 None [].

(** One open connection and the tag set [{a:1}]. *)
Definition w0 : world :=
  mkWorld {[ 0%nat := mkTags {[ "a" := "1" ]} ["a"] ]} {[ 0%nat := conn0 ]}.

(** An unmuted Client on them, rate 1, prefix [app.]. *)
Definition parent : Client :=
  mkClient (Some 0%nat) false f32_one "app." (Some 0%nat) Datadog.

(** The same Client, muted. *)
Definition silent : Client :=
  mkClient (Some 0%nat) true f32_one "app." (Some 0%nat) Datadog.


(** The world [w0] with an error handler on the connection. *)
Definition w0_handled : world :=
  mkWorld {[ 0%nat := mkTags {[ "a" := "1" ]} ["a"] ]}
          {[ 0%nat := mkConn Datadog false (mkWriter [] false) "" 1440
                             (Some 7%nat) [] ]}.


End Ex.

(** * Strings *)

Section StringFacts.

Lemma str_app_cons (a : ascii) (s t : string) :
  String a s +:+ t = String a (s +:+ t).
Proof. reflexivity. Qed.

Lemma str_app_nil_l (s : string) : "" +:+ s = s.
Proof. reflexivity. Qed.

Lemma str_app_nil_r (s : string) : s +:+ "" = s.
Proof. induction s as [|a s IH]; [reflexivity|]. rewrite str_app_cons. by f_equal. Qed.

Lemma str_app_assoc (s t u : string) : (s +:+ t) +:+ u = s +:+ (t +:+ u).
Proof.
  induction s as [|a s IH]; [reflexivity|].
  rewrite !str_app_cons. by f_equal.
Qed.

Lemma str_length_app (s t : string) :
  String.length (s +:+ t) = (String.length s + String.length t)%nat.
Proof.
  induction s as [|a s IH]; [reflexivity|].
  rewrite str_app_cons. simpl. by rewrite IH.
Qed.

Lemma substring_all (s : string) : substring 0 (String.length s) s = s.
Proof. induction s as [|a s IH]; [reflexivity|]. simpl. by rewrite IH. Qed.

Lemma substring_app_l (s t : string) :
  substring 0 (String.length s) (s +:+ t) = s.
Proof.
  induction s as [|a s IH].
  - simpl. by destruct t.
  - rewrite str_app_cons. simpl. by rewrite IH.
Qed.

Lemma substring_app_r (s t : string) (n : nat) :
  substring (String.length s) n (s +:+ t) = substring 0 n t.
Proof.
  induction s as [|a s IH]; [reflexivity|].
  rewrite str_app_cons. simpl. exact IH.
Qed.

(** A string is its first [n] bytes followed by the rest. *)
Lemma substring_split (s : string) (n : nat) :
  (n <= String.length s)%nat ->
  substring 0 n s +:+ substring n (String.length s - n) s = s.
Proof.
  revert n. induction s as [|a s IH]; intros n Hn.
  - simpl in Hn. assert (n = 0%nat) as -> by lia. reflexivity.
  - destruct n as [|n].
    + simpl. rewrite str_app_nil_l. by rewrite substring_all.
    + simpl in *. rewrite str_app_cons. f_equal. apply IH. lia.
Qed.

Lemma HasSuffix_app (s suffix : string) : HasSuffix (s +:+ suffix) suffix = true.
Proof.
  unfold HasSuffix. rewrite str_length_app.
  apply andb_true_iff. split.
  - apply Nat.leb_le. lia.
  - replace (String.length s + String.length suffix - String.length suffix)%nat
      with (String.length s) by lia.
    rewrite substring_app_r, substring_all. apply String.eqb_refl.
Qed.

Lemma TrimSuffix_app (s suffix : string) : TrimSuffix (s +:+ suffix) suffix = s.
Proof.
  unfold TrimSuffix. rewrite HasSuffix_app, str_length_app.
  replace (String.length s + String.length suffix - String.length suffix)%nat
    with (String.length s) by lia.
  apply substring_app_l.
Qed.

(** What [TrimSuffix] removes is put back by appending the suffix. *)
Lemma TrimSuffix_restore (s suffix : string) :
  HasSuffix s suffix = true -> TrimSuffix s suffix +:+ suffix = s.
Proof.
  intros H. unfold TrimSuffix. rewrite H.
  unfold HasSuffix in H. apply andb_true_iff in H as [Hlen Heq].
  apply Nat.leb_le in Hlen. apply String.eqb_eq in Heq.
  set (n := (String.length s - String.length suffix)%nat) in *.
  rewrite <- (substring_split s n) at 2 by lia.
  f_equal. rewrite <- Heq. f_equal. lia.
Qed.

Lemma TrimSuffix_none (s suffix : string) :
  HasSuffix s suffix = false -> TrimSuffix s suffix = s.
Proof. intros H. unfold TrimSuffix. by rewrite H. Qed.

End StringFacts.

(** * The tag set *)

Section TagsFacts.

Implicit Types (m : gmap string string) (ks tags : list string) (t : Tags).

Lemma concat_empty_sep_cons (x : string) (l : list string) :
  String.concat "" (x :: l) = x +:+ String.concat "" l.
Proof. destruct l; simpl; [by rewrite str_app_nil_r | reflexivity]. Qed.

Lemma foldl_influx_step m ks (acc : string) :
  foldl (influx_step m) acc ks
  = acc +:+ String.concat "" (map (influx_item m) ks).
Proof.
  revert acc. induction ks as [|k ks IH]; intros acc.
  - simpl. by rewrite str_app_nil_r.
  - rewrite map_cons, concat_empty_sep_cons. cbn [foldl]. rewrite IH.
    unfold influx_step, influx_item. by rewrite !str_app_assoc.
Qed.

Lemma foldl_datadog_step m ks (acc : string) :
  foldl (datadog_step m) acc ks
  = acc +:+ String.concat "" (map (fun k => datadog_item m k +:+ ",") ks).
Proof.
  revert acc. induction ks as [|k ks IH]; intros acc.
  - simpl. by rewrite str_app_nil_r.
  - rewrite map_cons, concat_empty_sep_cons. cbn [foldl]. rewrite IH.
    unfold datadog_step, datadog_item. by rewrite !str_app_assoc.
Qed.

(** Items each followed by a comma are the comma-separated items followed by
    one comma. *)
Lemma concat_trailing_sep (f : string -> string) ks :
  ks <> [] ->
  String.concat "" (map (fun k => f k +:+ ",") ks)
  = String.concat "," (map f ks) +:+ ",".
Proof.
  induction ks as [|k ks IH]; [done|]. intros _.
  destruct ks as [|k' ks].
  - reflexivity.
  - rewrite map_cons, concat_empty_sep_cons, IH by done.
    cbn [map String.concat]. by rewrite !str_app_assoc.
Qed.

Lemma numTags_zero t : (Tags_numTags t =? 0) = true <-> keys t = [].
Proof.
  unfold Tags_numTags. rewrite Z.eqb_eq. destruct (keys t); simpl; split; intros; [done|done|lia|done].
Qed.

Lemma Tags_format_empty t (tf : TagFormat) : keys t = [] -> Tags_format t tf = "".
Proof. intros H. unfold Tags_format. apply numTags_zero in H. by rewrite H. Qed.

Lemma Tags_format_InfluxDB t :
  Tags_format t InfluxDB = String.concat "" (map (influx_item (kvs t)) (keys t)).
Proof.
  unfold Tags_format. destruct (Tags_numTags t =? 0) eqn:E.
  - apply numTags_zero in E. by rewrite E.
  - change (InfluxDB =? InfluxDB) with true. cbv iota.
    by rewrite foldl_influx_step, str_app_nil_l.
Qed.

Lemma Tags_format_Datadog t :
  keys t <> [] ->
  Tags_format t Datadog
  = "|#" +:+ String.concat "," (map (datadog_item (kvs t)) (keys t)).
Proof.
  intros Hne. unfold Tags_format. destruct (Tags_numTags t =? 0) eqn:E.
  - apply numTags_zero in E. done.
  - change (Datadog =? InfluxDB) with false.
    change (Datadog =? Datadog) with true. cbv iota.
    rewrite foldl_datadog_step, concat_trailing_sep by done.
    rewrite <- str_app_assoc. apply TrimSuffix_app.
Qed.

Lemma Tags_format_unknown t (tf : TagFormat) :
  tf <> InfluxDB -> tf <> Datadog -> Tags_format t tf = "".
Proof.
  intros H1 H2. unfold Tags_format.
  destruct (Tags_numTags t =? 0); [done|].
  apply Z.eqb_neq in H1, H2. by rewrite H1, H2.
Qed.

(** ** [newTags] *)

Lemma odd_of_nat (n : nat) : Z.odd (Z.of_nat n) = Nat.odd n.
Proof.
  induction n as [|n IH]; [reflexivity|].
  rewrite Nat2Z.inj_succ, Z.odd_succ, Nat.odd_succ.
  rewrite <- Z.negb_odd, <- Nat.negb_odd. by rewrite IH.
Qed.

Lemma land_1_odd (n : nat) : (Z.land (Z.of_nat n) 1 =? 1) = Nat.odd n.
Proof.
  change 1 with (Z.ones 1) at 1. rewrite Z.land_ones by lia.
  change (2 ^ 1) with 2. by rewrite <- Zodd_mod, odd_of_nat.
Qed.

Lemma rem_2_odd (n : nat) : negb (Z.rem (Z.of_nat n) 2 =? 0) = Nat.odd n.
Proof.
  rewrite Z.rem_mod_nonneg by lia.
  rewrite Zmod_odd, odd_of_nat. by destruct (Nat.odd n).
Qed.

Lemma index_lookup {A} (s : list A) (i : nat) (x : A) :
  s !! i = Some x -> index s (Z.of_nat i) = Ok x.
Proof.
  intros H. unfold index.
  destruct (Z.ltb_spec (Z.of_nat i) 0); [lia|]. by rewrite Nat2Z.id, H.
Qed.

Lemma set_index_insert {A} (s : list A) (i : nat) (x : A) :
  (i < length s)%nat -> set_index s (Z.of_nat i) x = Ok (<[i := x]> s).
Proof.
  intros H. unfold set_index.
  destruct (Z.ltb_spec (Z.of_nat i) 0); [lia|].
  destruct (Z.leb_spec (Z.of_nat (length s)) (Z.of_nat i)); [lia|].
  simpl. by rewrite Nat2Z.id.
Qed.

(** The loop invariant: [2 * i] elements are consumed, [i] keys are
    written, [n] pairs remain. *)
Lemma newTags_loop_spec rest : forall (n i : nat) pre done m,
  length rest = (2 * n)%nat ->
  length pre = (2 * i)%nat ->
  length done = i ->
  newTags_loop (pre ++ rest) n (Z.of_nat i) m (done ++ replicate n "")
  = Ok (mkTags (pairs_kvs m rest) (done ++ pairs_keys rest)).
Proof.
  induction rest as [rest IH] using (induction_ltof1 _ (@length string)).
  unfold ltof in IH.
  intros n i pre done m Hrest Hpre Hdone.
  destruct n as [|n].
  - destruct rest; [|simpl in Hrest; lia]. simpl. by rewrite app_nil_r.
  - destruct rest as [|k [|v rest]]; [simpl in Hrest; lia..|].
    cbn [newTags_loop].
    rewrite Z.shiftl_mul_pow2 by lia. change (2 ^ 1) with 2.
    replace (Z.of_nat i * 2) with (Z.of_nat (2 * i)) by lia.
    rewrite (index_lookup _ _ k).
    2:{ rewrite lookup_app_r by lia. by rewrite Hpre, Nat.sub_diag. }
    cbn [mbind result_bind].
    replace (1 + Z.of_nat (2 * i)) with (Z.of_nat (S (2 * i))) by lia.
    rewrite (index_lookup _ _ v).
    2:{ rewrite lookup_app_r by lia.
        by replace (S (2 * i) - length pre)%nat with 1%nat by lia. }
    cbn [mbind result_bind].
    rewrite set_index_insert.
    2:{ rewrite length_app, length_replicate. lia. }
    cbn [mbind result_bind].
    replace (<[i:=k]> (done ++ replicate (S n) "")%list)
      with ((done ++ [k]) ++ replicate n "")%list.
    2:{ rewrite insert_app_r_alt by lia.
        rewrite Hdone, Nat.sub_diag. simpl. by rewrite <- app_assoc. }
    replace (pre ++ k :: v :: rest)%list with ((pre ++ [k; v]) ++ rest)%list
      by (by rewrite <- app_assoc).
    replace (Z.of_nat i + 1) with (Z.of_nat (S i)) by lia.
    rewrite IH.
    + simpl. by rewrite <- app_assoc.
    + simpl. lia.
    + simpl in Hrest. lia.
    + rewrite length_app. simpl. lia.
    + rewrite length_app. simpl. lia.
Qed.

Lemma newTags_spec tags :
  newTags tags
  = if Nat.odd (length tags) then Panic panic_odd_newTags
    else Ok (mkTags (pairs_kvs ∅ tags) (pairs_keys tags)).
Proof.
  unfold newTags. cbv zeta. rewrite land_1_odd.
  destruct (Nat.odd (length tags)) eqn:Hodd; [done|].
  destruct (Z.eqb_spec (Z.of_nat (length tags)) 0) as [E|E].
  - destruct tags; [done|simpl in E; lia].
  - rewrite <- Nat.negb_even in Hodd.
    apply negb_false_iff, Nat.even_spec in Hodd as [n Hn].
    rewrite Z.shiftr_div_pow2 by lia. change (2 ^ 1) with 2.
    replace (Z.to_nat (Z.of_nat (length tags) / 2)) with n.
    2:{ rewrite Hn. replace (Z.of_nat (2 * n)) with (Z.of_nat n * 2) by lia.
        rewrite Z.div_mul by lia. lia. }
    exact (newTags_loop_spec tags n 0 [] [] ∅ Hn eq_refl eq_refl).
Qed.

Lemma CommonTags_spec tags :
  CommonTags tags
  = if Nat.odd (length tags) then Panic panic_odd_Tags
    else Ok (CommonTags_func tags).
Proof. unfold CommonTags. by rewrite rem_2_odd. Qed.

End TagsFacts.

(** ** [Tags.append] *)

Section AppendFacts.

Implicit Types (m : gmap string string) (ks : list string) (t : Tags).

(** Folding [append_step] over [ks]: the keys gained are the keys of [ks]
    absent from the receiver, once each, in the order of [ks]; they get the
    other set's values and nothing else changes. *)
Lemma append_fold m ks : forall t,
  exists added : list string,
    keys (foldl (append_step m) t ks) = (keys t ++ added)%list
    /\ NoDup added
    /\ sublist added ks
    /\ (forall k, k ∈ added <-> k ∈ ks /\ kvs t !! k = None)
    /\ (forall k, kvs (foldl (append_step m) t ks) !! k
                  = if decide (k ∈ added) then Some (map_get m k)
                    else kvs t !! k).
Proof.
  induction ks as [|k0 ks IH]; intros t.
  - exists []. simpl. rewrite app_nil_r.
    split_and!; [done|constructor|constructor| |done].
    intros k. split; [intros H|intros [H _]]; by apply elem_of_nil in H.
  - cbn [foldl]. unfold append_step at 2 4.
    destruct (kvs t !! k0) as [v0|] eqn:Hk0.
    + destruct (IH t) as (added & Hkeys & Hnd & Hsub & Hin & Hval).
      exists added. split_and!; [done|done|by apply sublist_cons| |done].
      intros k. rewrite Hin. split; intros [H Hnone]; (split; [|done]).
      * by apply elem_of_cons; right.
      * apply elem_of_cons in H as [->|H]; [congruence|done].
    + destruct (IH (mkTags (<[k0:=map_get m k0]> (kvs t)) (keys t ++ [k0])))
        as (added & Hkeys & Hnd & Hsub & Hin & Hval).
      cbn [kvs keys] in *.
      assert (k0 ∉ added) as Hk0added.
      { intros H. apply Hin in H as [_ H]. by rewrite lookup_insert_eq in H. }
      exists (k0 :: added). split_and!.
      * by rewrite Hkeys, <- app_assoc.
      * by constructor.
      * by apply sublist_skip.
      * intros k. rewrite !elem_of_cons, Hin. split.
        -- intros [->|[H Hnone]]; [by split; [left|]|].
           apply lookup_insert_None in Hnone as [Hnone _]. by split; [right|].
        -- intros [[->|H] Hnone]; [by left|].
           destruct (decide (k = k0)) as [->|Hne]; [by left|].
           right. split; [done|]. by rewrite lookup_insert_ne.
      * intros k. rewrite Hval.
        destruct (decide (k = k0)) as [->|Hne].
        -- rewrite decide_False by done.
           rewrite decide_True by (by apply elem_of_cons; left).
           by rewrite lookup_insert_eq.
        -- rewrite lookup_insert_ne by done.
           destruct (decide (k ∈ added)) as [Hk|Hk].
           ++ by rewrite decide_True by (by apply elem_of_cons; right).
           ++ rewrite decide_False; [done|].
              intros [?|?]%elem_of_cons; done.
Qed.

Lemma filter_absent_insert m (k0 v : string) ks :
  k0 ∉ ks ->
  filter (fun k => <[k0 := v]> m !! k = None) ks
  = filter (fun k => m !! k = None) ks.
Proof.
  induction ks as [|k ks IH]; intros Hk0; [reflexivity|].
  apply not_elem_of_cons in Hk0 as [Hne Hk0].
  rewrite !filter_cons, IH by done.
  rewrite lookup_insert_ne by done. reflexivity.
Qed.

(** Without repeated keys in the other set, the keys gained are its keys
    filtered by absence, as a list. *)
Lemma append_fold_NoDup m ks : forall t,
  NoDup ks ->
  keys (foldl (append_step m) t ks)
  = (keys t ++ filter (fun k => kvs t !! k = None) ks)%list.
Proof.
  induction ks as [|k0 ks IH]; intros t Hnd.
  - simpl. by rewrite app_nil_r.
  - apply NoDup_cons in Hnd as [Hk0 Hnd].
    cbn [foldl]. unfold append_step at 2.
    destruct (kvs t !! k0) as [v0|] eqn:Hk0t.
    + rewrite IH by done. rewrite filter_cons_False; [done|].
      by rewrite Hk0t.
    + rewrite IH by done. cbn [kvs keys].
      rewrite filter_cons_True by done. rewrite <- app_assoc. simpl.
      by rewrite filter_absent_insert.
Qed.

End AppendFacts.

(** ** [Tags.clone] *)

Section CloneFacts.

Lemma clone_loop_spec (src : gmap string string) (ks : list string) :
  forall (i : nat) (m : gmap string string) (pre : list string),
  length pre = i ->
  clone_loop src ks (Z.of_nat i) m (pre ++ replicate (length ks) "")
  = Ok (mkTags (foldl (fun acc k => <[k := map_get src k]> acc) m ks)
               (pre ++ ks)).
Proof.
  induction ks as [|k ks IH]; intros i m pre Hpre.
  - simpl. reflexivity.
  - cbn [clone_loop length replicate].
    rewrite set_index_insert by (rewrite length_app; simpl; lia).
    cbn [mbind result_bind].
    rewrite insert_app_r_alt by lia. rewrite Hpre, Nat.sub_diag. cbn [insert list_insert].
    replace (pre ++ k :: replicate (length ks) "")%list
      with ((pre ++ [k]) ++ replicate (length ks) "")%list
      by (by rewrite <- app_assoc).
    replace (Z.of_nat i + 1) with (Z.of_nat (S i)) by lia.
    rewrite IH by (rewrite length_app; simpl; lia).
    cbn [foldl]. by rewrite <- app_assoc.
Qed.

Lemma Tags_clone_spec (t : Tags) :
  Tags_clone t = Ok (mkTags (clone_kvs (kvs t) (keys t)) (keys t)).
Proof.
  unfold Tags_clone, Tags_numTags. cbv zeta. rewrite Nat2Z.id.
  exact (clone_loop_spec (kvs t) (keys t) 0 ∅ [] eq_refl).
Qed.

End CloneFacts.

(** * Options and cloning *)

Section OptionFacts.

Lemma world_eta (w : world) : mkWorld (tagsHeap w) (connHeap w) = w.
Proof. by destruct w. Qed.

Lemma bind_Ok {A B} (m : M A) (f : A -> M B) (w w' : world) (a : A) :
  m w = (w', Ok a) -> (m ≫= f) w = f a w'.
Proof. intros H. unfold mbind, M_bind. by rewrite H. Qed.

Lemma bind_Panic {A B} (m : M A) (f : A -> M B) (w w' : world) msg :
  m w = (w', Panic msg) -> (m ≫= f) w = (w', Panic msg).
Proof. intros H. unfold mbind, M_bind. by rewrite H. Qed.

Lemma built_even (tags : list string) :
  built (CommonTags_func tags) -> Nat.odd (length tags) = false.
Proof.
  unfold built. rewrite CommonTags_spec. by destruct (Nat.odd (length tags)).
Qed.

Lemma Tags_append_empty (t : Tags) : Tags_append t (mkTags ∅ []) = t.
Proof. reflexivity. Qed.

(** One option, on a configuration whose tag set is allocated. *)
Lemma apply_option_spec (o : Option) (conf : config) (w : world)
    (tl : loc) (t : Tags) :
  built o ->
  Client_Tags (cfg_Client conf) = Some tl ->
  tagsHeap w !! tl = Some t ->
  exists conf',
    apply_option o conf w
    = (mkWorld (<[tl := tags_after [o] t]> (tagsHeap w)) (connHeap w), Ok conf')
    /\ Client_Tags (cfg_Client conf') = Some tl
    /\ Client_Muted (cfg_Client conf') = Muted_after (Client_Muted (cfg_Client conf)) [o]
    /\ Client_Rate (cfg_Client conf') = Rate_after (Client_Rate (cfg_Client conf)) [o]
    /\ Client_Prefix (cfg_Client conf')
       = Client_Prefix (cfg_Client conf) +:+ Prefix_options [o].
Proof.
  intros Hb Htl Ht.
  assert (mkWorld (<[tl := t]> (tagsHeap w)) (connHeap w) = w) as Hsame.
  { rewrite insert_id by done. apply world_eta. }
  destruct o; cbn [apply_option tags_after foldl Muted_after Rate_after Prefix_options];
    try (eexists; rewrite Hsame; split; [reflexivity|];
         cbn; rewrite ?str_app_nil_r; by split_and!).
  - (* Prefix *)
    eexists. rewrite Hsame. split; [reflexivity|]. cbn.
    split_and!; try done. f_equal. rewrite str_app_nil_r. unfold dotted.
    destruct (HasSuffix p ".") eqn:E.
    + by apply TrimSuffix_restore.
    + by rewrite TrimSuffix_none.
  - (* CommonTags *)
    apply built_even in Hb.
    destruct (Z.eqb_spec (Z.of_nat (length tags)) 0) as [E|E].
    + destruct tags; [|simpl in E; lia]. cbn [pairs_kvs pairs_keys].
      rewrite Tags_append_empty, Hsame. eexists. split; [reflexivity|].
      cbn. rewrite ?str_app_nil_r. by split_and!.
    + erewrite bind_Ok; [|unfold lift; by rewrite newTags_spec, Hb].
      erewrite bind_Ok; [|unfold load_tags; by rewrite Htl, Ht].
      rewrite Htl. eexists. split; [reflexivity|].
      cbn. rewrite ?str_app_nil_r. by split_and!.
Qed.

Lemma tags_after_cons (o : Option) (opts : list Option) (t : Tags) :
  tags_after (o :: opts) t = tags_after opts (tags_after [o] t).
Proof. reflexivity. Qed.

Lemma apply_options_spec (opts : list Option) :
  forall (conf : config) (w : world) (tl : loc) (t : Tags),
  Forall built opts ->
  Client_Tags (cfg_Client conf) = Some tl ->
  tagsHeap w !! tl = Some t ->
  exists conf',
    apply_options opts conf w
    = (mkWorld (<[tl := tags_after opts t]> (tagsHeap w)) (connHeap w), Ok conf')
    /\ Client_Tags (cfg_Client conf') = Some tl
    /\ Client_Muted (cfg_Client conf') = Muted_after (Client_Muted (cfg_Client conf)) opts
    /\ Client_Rate (cfg_Client conf') = Rate_after (Client_Rate (cfg_Client conf)) opts
    /\ Client_Prefix (cfg_Client conf')
       = Client_Prefix (cfg_Client conf) +:+ Prefix_options opts.
Proof.
  induction opts as [|o opts IH]; intros conf w tl t Hb Htl Ht.
  - exists conf. cbn. rewrite insert_id by done. rewrite world_eta, str_app_nil_r.
    by split_and!.
  - apply Forall_cons in Hb as [Hbo Hb].
    destruct (apply_option_spec o conf w tl t Hbo Htl Ht)
      as (conf1 & Hrun1 & Htl1 & Hm1 & Hr1 & Hp1).
    destruct (IH conf1
                 (mkWorld (<[tl := tags_after [o] t]> (tagsHeap w)) (connHeap w))
                 tl (tags_after [o] t) Hb Htl1 (lookup_insert_eq _ _ _))
      as (conf2 & Hrun2 & Htl2 & Hm2 & Hr2 & Hp2).
    exists conf2. cbn [apply_options].
    erewrite bind_Ok by exact Hrun1. rewrite Hrun2. cbn [tagsHeap connHeap].
    rewrite insert_insert_eq, tags_after_cons.
    split_and!; [done|done| | |].
    + by rewrite Hm2, Hm1.
    + by rewrite Hr2, Hr1.
    + rewrite Hp2, Hp1, str_app_assoc. f_equal.
      destruct o; cbn [Prefix_options]; rewrite ?str_app_nil_r; try reflexivity.
Qed.

(** Whatever the options are, applying them leaves the connections alone
    and keeps the tag-set pointer of the configuration. *)
Lemma apply_option_frame (o : Option) (conf : config) (w : world) :
  connHeap (apply_option o conf w).1 = connHeap w
  /\ forall conf', (apply_option o conf w).2 = Ok conf' ->
       Client_Tags (cfg_Client conf') = Client_Tags (cfg_Client conf).
Proof.
  destruct o; cbn [apply_option]; unfold mret, M_ret; cbn [fst snd];
    try (split; [reflexivity|]; intros conf' Heq; injection Heq as <-; reflexivity).
  destruct (Z.of_nat (length tags) =? 0); cbn [fst snd].
  { split; [reflexivity|]. intros conf' Heq; by injection Heq as <-. }
  unfold mbind, M_bind, lift, load_tags, store_tags.
  destruct (newTags tags); [|split; [reflexivity|done]].
  destruct (Client_Tags (cfg_Client conf)) as [l|] eqn:El;
    [|split; [reflexivity|done]].
  destruct (tagsHeap w !! l); [|split; [reflexivity|done]].
  cbn. split; [reflexivity|]. intros conf' Heq. by injection Heq as <-.
Qed.

Lemma apply_options_frame (opts : list Option) : forall (conf : config) (w : world),
  connHeap (apply_options opts conf w).1 = connHeap w
  /\ forall conf', (apply_options opts conf w).2 = Ok conf' ->
       Client_Tags (cfg_Client conf') = Client_Tags (cfg_Client conf).
Proof.
  induction opts as [|o opts IH]; intros conf w.
  - cbn. split; [reflexivity|]. intros conf' Heq; by injection Heq as <-.
  - cbn [apply_options]. unfold mbind at 1 2, M_bind at 1 2.
    destruct (apply_option_frame o conf w) as [Hc Ht].
    destruct (apply_option o conf w) as [w1 [conf1|msg]]; cbn [fst snd] in *.
    + destruct (IH conf1 w1) as [Hc' Ht'].
      split; [congruence|]. intros conf' H. rewrite (Ht' _ H). by apply Ht.
    + split; [done|done].
Qed.

End OptionFacts.

Section CloneClientFacts.

(** [Clone] on a live Client with built options returns, and this is what
    it returns and what it leaves in memory. *)
Lemma Clone_spec (c : Client) (opts : list Option) (w : world)
    (l : loc) (cn : conn) (tl : loc) (t : Tags) :
  c_conn c = Some l -> connHeap w !! l = Some cn ->
  c_tags c = Some tl -> tagsHeap w !! tl = Some t ->
  Forall built opts ->
  let t1 := tags_after opts t in
  let heap1 := <[tl := t1]> (tagsHeap w) in
  Clone c opts w
  = (mkWorld (<[fresh (dom heap1) := mkTags (clone_kvs (kvs t1) (keys t1)) (keys t1)]> heap1)
             (connHeap w),
     Ok (mkClient (Some l) (c_muted c || Muted_option opts)
                  (Rate_after (c_rate c) opts)
                  (c_prefix c +:+ Prefix_options opts)
                  (Some (fresh (dom heap1))) (conn_tagFormat cn))).
Proof.
  intros Hl Hcn Htl Ht Hb t1 heap1. unfold Clone.
  erewrite bind_Ok; [|unfold load_conn; by rewrite Hl, Hcn].
  destruct (apply_options_spec opts
              (mkConfig (mkConnConfig "" None 0 0 "" 0)
                        (mkClientConfig false (c_rate c) (c_prefix c) (c_tags c)))
              w tl t Hb Htl Ht)
    as (conf' & Hrun & Htl' & Hm & Hr & Hp).
  cbn [cfg_Client Client_Muted Client_Rate Client_Prefix] in Hm, Hr, Hp.
  erewrite bind_Ok by exact Hrun.
  erewrite bind_Ok;
    [|unfold load_tags; cbn [tagsHeap]; by rewrite Htl', lookup_insert_eq].
  erewrite bind_Ok; [|unfold lift; by rewrite Tags_clone_spec].
  erewrite bind_Ok; [|reflexivity].
  unfold mret, M_ret. cbn [tagsHeap connHeap].
  by rewrite Hm, Hr, Hp, Hl.
Qed.

(** [Clone] never touches a connection, however it ends. *)
Lemma Clone_connHeap (c : Client) (opts : list Option) (w : world) :
  connHeap (Clone c opts w).1 = connHeap w.
Proof.
  unfold Clone, mbind, M_bind, load_conn.
  destruct (c_conn c) as [l|]; [|reflexivity].
  destruct (connHeap w !! l) as [cn|]; [|reflexivity].
  match goal with |- context [apply_options opts ?k w] =>
    destruct (apply_options_frame opts k w) as [Hc _];
    destruct (apply_options opts k w) as [w1 [conf1|msg]] end;
    cbn [fst] in *; [|done].
  unfold load_tags.
  destruct (Client_Tags (cfg_Client conf1)) as [tl|]; [|done].
  destruct (tagsHeap w1 !! tl) as [t|]; [|done].
  unfold lift. destruct (Tags_clone t); [|done].
  unfold alloc_tags, mret, M_ret. done.
Qed.

(** A Client without a tag set cannot be cloned: [Clone] panics whatever
    the options are. *)
Lemma Clone_nil_tags (c : Client) (opts : list Option) (w : world) :
  c_tags c = None -> exists msg, (Clone c opts w).2 = Panic msg.
Proof.
  intros Hnil. unfold Clone, mbind, M_bind, load_conn.
  destruct (c_conn c) as [l|]; [|by eexists].
  destruct (connHeap w !! l) as [cn|]; [|by eexists].
  match goal with |- context [apply_options opts ?k w] =>
    destruct (apply_options_frame opts k w) as [_ Ht];
    destruct (apply_options opts k w) as [w1 [conf1|msg]] end;
    cbn [snd] in *; [|by eexists].
  specialize (Ht conf1 eq_refl). cbn in Ht. rewrite Hnil in Ht.
  unfold load_tags. rewrite Ht. by eexists.
Qed.

End CloneClientFacts.

(** ** What [Clone] returns, whenever it returns *)

Section CloneResult.

Lemma dotted_TrimSuffix (p : string) : TrimSuffix p "." +:+ "." = dotted p.
Proof.
  unfold dotted. destruct (HasSuffix p ".") eqn:E.
  - by apply TrimSuffix_restore.
  - by rewrite TrimSuffix_none.
Qed.

Lemma Prefix_options_cons (o : Option) (opts : list Option) :
  Prefix_options (o :: opts) = Prefix_options [o] +:+ Prefix_options opts.
Proof.
  destruct o; cbn [Prefix_options]; rewrite ?str_app_nil_r; reflexivity.
Qed.

Lemma apply_option_result (o : Option) (conf conf' : config) (w : world) :
  (apply_option o conf w).2 = Ok conf' ->
  Client_Muted (cfg_Client conf') = Muted_after (Client_Muted (cfg_Client conf)) [o]
  /\ Client_Rate (cfg_Client conf') = Rate_after (Client_Rate (cfg_Client conf)) [o]
  /\ Client_Prefix (cfg_Client conf')
     = Client_Prefix (cfg_Client conf) +:+ Prefix_options [o].
Proof.
  destruct o; cbn [apply_option Muted_after Rate_after Prefix_options foldl];
    unfold mret, M_ret; cbn [fst snd];
    try (intros Heq; injection Heq as <-; cbn; rewrite ?str_app_nil_r;
         by split_and!).
  - intros Heq. injection Heq as <-. cbn. rewrite str_app_nil_r.
    split_and!; [done|done|]. f_equal. apply dotted_TrimSuffix.
  - destruct (Z.of_nat (length tags) =? 0); cbn [fst snd].
    { intros Heq. injection Heq as <-. rewrite str_app_nil_r. by split_and!. }
    unfold mbind, M_bind, lift, load_tags, store_tags.
    destruct (newTags tags); [|done].
    destruct (Client_Tags (cfg_Client conf)) as [l|]; [|done].
    destruct (tagsHeap w !! l); [|done].
    cbn. intros Heq. injection Heq as <-. rewrite str_app_nil_r. by split_and!.
Qed.

Lemma apply_options_result (opts : list Option) :
  forall (conf conf' : config) (w : world),
  (apply_options opts conf w).2 = Ok conf' ->
  Client_Muted (cfg_Client conf') = Muted_after (Client_Muted (cfg_Client conf)) opts
  /\ Client_Rate (cfg_Client conf') = Rate_after (Client_Rate (cfg_Client conf)) opts
  /\ Client_Prefix (cfg_Client conf')
     = Client_Prefix (cfg_Client conf) +:+ Prefix_options opts.
Proof.
  induction opts as [|o opts IH]; intros conf conf' w.
  - cbn. intros Heq. injection Heq as <-. rewrite str_app_nil_r. by split_and!.
  - cbn [apply_options]. unfold mbind at 1, M_bind at 1.
    destruct (apply_option o conf w) as [w1 [conf1|msg]] eqn:E; [|done].
    intros Hrest.
    destruct (apply_option_result o conf conf1 w) as (Hm & Hr & Hp);
      [by rewrite E|].
    destruct (IH conf1 conf' w1 Hrest) as (Hm' & Hr' & Hp').
    rewrite Hm', Hr', Hp', Hm, Hr, Hp, str_app_assoc, (Prefix_options_cons o opts).
    by split_and!.
Qed.

(** Every Client that [Clone] returns has the parent's connection, the
    parent's [muted] or the options' [Muted], and the parent's prefix
    followed by the options' prefixes. *)
Lemma Clone_result (c clone : Client) (opts : list Option) (w w' : world) :
  Clone c opts w = (w', Ok clone) ->
  c_conn clone = c_conn c
  /\ c_muted clone = c_muted c || Muted_option opts
  /\ c_prefix clone = c_prefix c +:+ Prefix_options opts.
Proof.
  intros H. unfold Clone in H. unfold mbind at 1, M_bind at 1 in H.
  destruct (load_conn (c_conn c) w) as [w1 [cn|?]]; [|done].
  unfold mbind at 1, M_bind at 1 in H.
  match type of H with context [apply_options opts ?k w1] =>
    pose proof (apply_options_result opts k) as Hres;
    destruct (apply_options opts k w1) as [w2 [conf|?]] eqn:E; [|done] end.
  destruct (Hres conf w1) as (Hm & _ & Hp); [by rewrite E|].
  cbn in Hm, Hp.
  unfold mbind, M_bind in H.
  destruct (load_tags _ w2) as [w3 [t|?]]; [|done].
  destruct (lift (Tags_clone t) w3) as [w4 [t'|?]]; [|done].
  destruct (alloc_tags t' w4) as [w5 [tl|?]]; [|done].
  injection H as _ <-. cbn. by rewrite Hm, Hp.
Qed.

End CloneResult.

(** * The facade on a muted Client *)

Section MutedFacts.

Variable render_value : Value -> string.
Variable render_rate : float32 -> string.

Lemma skip_muted (c : Client) (r : float32) : c_muted c = true -> skip c r = true.
Proof. intros H. unfold skip. by rewrite H. Qed.

Lemma run_op_muted (c : Client) (op : Op) (w : world) :
  c_muted c = true -> run_op render_value render_rate c op w = (w, Ok tt).
Proof.
  intros H. destruct op; cbn [run_op];
    unfold Increment, Count, Gauge, Timing, Histogram, Unique, Flush, Close;
    rewrite ?skip_muted by done; rewrite ?H; reflexivity.
Qed.

Lemma run_ops_muted (c : Client) (ops : list Op) (w : world) :
  c_muted c = true -> run_ops render_value render_rate c ops w = (w, Ok tt).
Proof.
  intros H. induction ops as [|op ops IH]; [reflexivity|].
  cbn [run_ops]. erewrite bind_Ok by (by apply run_op_muted). exact IH.
Qed.

End MutedFacts.

(** * The transport *)

Section TransportFacts.

Implicit Types (cn : conn) (line p : string).

Lemma len_zero (s : string) : (len s =? 0) = true <-> s = "".
Proof.
  unfold len. rewrite Z.eqb_eq.
  destruct s; simpl; split; intros; [done|done|lia|done].
Qed.



Lemma handleError_fields (err : option error) cn :
  conn_buf (handleError err cn) = conn_buf cn
  /\ conn_w (handleError err cn) = conn_w cn
  /\ conn_closed (handleError err cn) = conn_closed cn
  /\ conn_maxPacketSize (handleError err cn) = conn_maxPacketSize cn
  /\ conn_tagFormat (handleError err cn) = conn_tagFormat cn.
Proof.
  unfold handleError. destruct err, (conn_errorHandler cn); by split_and!.
Qed.



Lemma flush_empty (force : Z) cn : conn_buf cn = "" -> flush force cn = cn.
Proof.
  intros H. unfold flush. destruct (conn_closed cn); [done|].
  apply len_zero in H. by rewrite H.
Qed.

Lemma flush_closed (force : Z) cn : conn_closed cn = true -> flush force cn = cn.
Proof. intros H. unfold flush. by rewrite H. Qed.

Lemma emit_closed line cn : conn_closed cn = true -> emit line cn = cn.
Proof. intros H. unfold emit. by rewrite H. Qed.










End TransportFacts.

(** * The facade on a closed connection *)

Section ClosedFacts.

Variable render_value : Value -> string.
Variable render_rate : float32 -> string.

Lemma with_conn_Some (l : loc) (f : conn -> conn) (w : world) (cn : conn) :
  connHeap w !! l = Some cn ->
  with_conn (Some l) f w
  = (mkWorld (tagsHeap w) (<[l := f cn]> (connHeap w)), Ok tt).
Proof. intros H. unfold with_conn. by rewrite H. Qed.

Lemma world_same (w : world) (l : loc) (cn : conn) :
  connHeap w !! l = Some cn ->
  mkWorld (tagsHeap w) (<[l := cn]> (connHeap w)) = w.
Proof. intros H. rewrite insert_id by done. apply world_eta. Qed.

Lemma Close_locked_fields (cn : conn) :
  conn_closed (Close_locked cn) = true
  /\ w_closed (conn_w (Close_locked cn)) = true
  /\ w_writes (conn_w (Close_locked cn)) = w_writes (conn_w (flush 0 cn)).
Proof.
  unfold Close_locked, w_Close.
  cbn [set_closed conn_closed conn_w].
  destruct (handleError_fields
              (if w_closed (conn_w (flush 0 cn)) then Some err_closed_conn else None)
              (set_w (flush 0 cn) (mkWriter (w_writes (conn_w (flush 0 cn))) true)))
    as (_ & -> & _).
  by split_and!.
Qed.

Lemma newTags_even (ts : list string) :
  Nat.even (length ts) = true ->
  newTags ts = Ok (mkTags (pairs_kvs ∅ ts) (pairs_keys ts)).
Proof.
  intros H. rewrite newTags_spec, <- Nat.negb_even, H. reflexivity.
Qed.

(** A metric, a flush or a close on a Client whose connection is closed
    returns, and leaves the connection closed with the same writes. *)
Lemma run_op_on_closed (c : Client) (op : Op) (w : world)
    (l : loc) (cn : conn) (tl : loc) (t : Tags) :
  c_conn c = Some l -> connHeap w !! l = Some cn -> conn_closed cn = true ->
  c_tags c = Some tl -> tagsHeap w !! tl = Some t ->
  even_tags op ->
  exists cn',
    run_op render_value render_rate c op w
    = (mkWorld (tagsHeap w) (<[l := cn']> (connHeap w)), Ok tt)
    /\ conn_closed cn' = true
    /\ w_writes (conn_w cn') = w_writes (conn_w cn).
Proof.
  intros Hl Hcn Hclosed Htl Ht Heven.
  assert (exists cn', (w, Ok tt)
            = (mkWorld (tagsHeap w) (<[l := cn']> (connHeap w)), Ok tt)
            /\ conn_closed cn' = true
            /\ w_writes (conn_w cn') = w_writes (conn_w cn)) as Hsame.
  { exists cn. by rewrite world_same. }
  destruct op; cbn [run_op even_tags] in *;
    unfold Increment, Count, Gauge, Timing, Histogram, Unique, Flush, Close;
    try (destruct (skip c r); [exact Hsame|]);
    try (destruct (c_muted c); [exact Hsame|]);
    try (erewrite bind_Ok; [|unfold lift; by rewrite newTags_even]);
    try (erewrite bind_Ok; [|unfold load_tags; by rewrite Htl, Ht]);
    unfold conn_metric, conn_gauge, conn_unique;
    rewrite Hl; erewrite with_conn_Some by exact Hcn;
    rewrite ?emit_closed, ?flush_closed by done;
    try (by exists cn).
  (* Close *)
  destruct (Close_locked_fields cn) as (Hc & _ & Hw).
  exists (Close_locked cn). split_and!; [done|done|].
  by rewrite Hw, flush_closed.
Qed.

Lemma net_writes_insert (w : world) (l : loc) (cn cn' : conn) (l' : loc) :
  connHeap w !! l = Some cn ->
  w_writes (conn_w cn') = w_writes (conn_w cn) ->
  net_writes (mkWorld (tagsHeap w) (<[l := cn']> (connHeap w))) l'
  = net_writes w l'.
Proof.
  intros Hcn Hw. unfold net_writes. cbn [connHeap].
  destruct (decide (l = l')) as [<-|Hne].
  - by rewrite lookup_insert_eq, Hcn.
  - by rewrite lookup_insert_ne.
Qed.

Lemma run_ops_on_closed (c : Client) (ops : list Op) :
  forall (w : world) (l : loc) (cn : conn) (tl : loc) (t : Tags),
  c_conn c = Some l -> connHeap w !! l = Some cn -> conn_closed cn = true ->
  c_tags c = Some tl -> tagsHeap w !! tl = Some t ->
  Forall even_tags ops ->
  exists w',
    run_ops render_value render_rate c ops w = (w', Ok tt)
    /\ forall l', net_writes w' l' = net_writes w l'.
Proof.
  induction ops as [|op ops IH]; intros w l cn tl t Hl Hcn Hclosed Htl Ht Heven.
  - by exists w.
  - apply Forall_cons in Heven as [Hop Heven].
    destruct (run_op_on_closed c op w l cn tl t Hl Hcn Hclosed Htl Ht Hop)
      as (cn' & Hrun & Hclosed' & Hw).
    destruct (IH (mkWorld (tagsHeap w) (<[l := cn']> (connHeap w))) l cn' tl t
                Hl (lookup_insert_eq _ _ _) Hclosed' Htl Ht Heven)
      as (w' & Hrun' & Hnet).
    exists w'. cbn [run_ops]. erewrite bind_Ok by exact Hrun.
    split; [done|]. intros l'. rewrite Hnet.
    by apply (net_writes_insert w l cn cn').
Qed.

(** [Close] on an unmuted Client returns exactly when its connection is
    allocated, and then the connection is marked closed. *)
Lemma Close_unmuted (c : Client) (w w' : world) :
  c_muted c = false -> Close c w = (w', Ok tt) ->
  exists l cn,
    c_conn c = Some l /\ connHeap w !! l = Some cn
    /\ w' = mkWorld (tagsHeap w) (<[l := Close_locked cn]> (connHeap w)).
Proof.
  intros Hm. unfold Close, with_conn. rewrite Hm.
  destruct (c_conn c) as [l|]; [|done].
  destruct (connHeap w !! l) as [cn|] eqn:Hcn; [|done].
  intros [= <-]. by exists l, cn.
Qed.

End ClosedFacts.

(** * The properties of the design document *)

Section Claims.




(** C2: merging [o] into [r] appends to [r]'s keys exactly the keys of [o]
    that [r] does not have, once each and in [o]'s order (the filtered key
    list itself when [o] has no repeated key); every key [r] has keeps its
    value, every key gained takes [o]'s value, and no other key appears.
    [{a:1}] merged with [{a:2, b:3}] is [{a:1, b:3}] with keys [a, b]. *)
Theorem Tags_append_first_writer_wins (r o : Tags) :
  (exists added : list string,
     keys (Tags_append r o) = (keys r ++ added)%list
     /\ NoDup added
     /\ sublist added (keys o)
     /\ (forall k, k ∈ added <-> k ∈ keys o /\ kvs r !! k = None)
     /\ (NoDup (keys o) ->
         added = filter (fun k => kvs r !! k = None) (keys o)))
  /\ (forall k v, kvs r !! k = Some v -> kvs (Tags_append r o) !! k = Some v)
  /\ (forall k, kvs r !! k = None -> k ∈ keys o ->
        kvs (Tags_append r o) !! k = Some (map_get (kvs o) k))
  /\ (forall k, kvs r !! k = None -> k ∉ keys o ->
        kvs (Tags_append r o) !! k = None)
  /\ (r0 ← newTags ["a"; "1"]; o0 ← newTags ["a"; "2"; "b"; "3"];
      Ok (Tags_append r0 o0))
     = Ok (mkTags {[ "a" := "1"; "b" := "3" ]} ["a"; "b"]).
Proof.
  unfold Tags_append.
  destruct (append_fold (kvs o) (keys o) r)
    as (added & Hkeys & Hnd & Hsub & Hin & Hval).
  split_and!.
  - exists added. split_and!; try done.
    intros Hndo. pose proof (append_fold_NoDup (kvs o) (keys o) r Hndo) as H.
    rewrite Hkeys in H. by apply app_inv_head in H.
  - intros k v Hk. rewrite Hval.
    rewrite decide_False; [done|]. intros H. apply Hin in H as [_ H]. congruence.
  - intros k Hk Hko. rewrite Hval. by rewrite decide_True by (by apply Hin).
  - intros k Hk Hko. rewrite Hval.
    rewrite decide_False; [done|]. intros H. by apply Hin in H as [H _].
  - vm_compute. reflexivity.
Qed.

(** C3: the InfluxDB dialect prints [,k=v] for every key in insertion
    order, the Datadog dialect prints [|#] followed by the [k:v] items
    separated by commas with no comma at the end, both print the empty
    string for a set without tags, and any other dialect prints the empty
    string.  [{host:x, env:y}] prints as [,host=x,env=y] and
    [|#host:x,env:y]. *)
Theorem Tags_format_dialects (t : Tags) (tf : TagFormat) :
  Tags_format t InfluxDB
  = String.concat "" (map (influx_item (kvs t)) (keys t))
  /\ Tags_format t Datadog
     = (if decide (keys t = []) then ""
        else "|#" +:+ String.concat "," (map (datadog_item (kvs t)) (keys t)))
  /\ (keys t = [] -> Tags_format t tf = "")
  /\ (tf <> InfluxDB -> tf <> Datadog -> Tags_format t tf = "")
  /\ (t0 ← newTags ["host"; "x"; "env"; "y"];
      Ok (Tags_format t0 InfluxDB, Tags_format t0 Datadog, Tags_format t0 0))
     = Ok (",host=x,env=y", "|#host:x,env:y", "").
Proof.
  split_and!.
  - apply Tags_format_InfluxDB.
  - destruct (decide (keys t = [])) as [H|H].
    + by apply Tags_format_empty.
    + by apply Tags_format_Datadog.
  - apply Tags_format_empty.
  - apply Tags_format_unknown.
  - vm_compute. reflexivity.
Qed.

(** C8: [newTags] and [CommonTags] panic on an odd number of arguments, and
    on every even number of arguments they return: [newTags] the tag set of
    the pairs, [CommonTags] its option, whose application then builds that
    same tag set without failing. *)
Theorem odd_tag_arguments_panic (tags : list string) :
  newTags tags
  = (if Nat.odd (length tags) then Panic panic_odd_newTags
     else Ok (mkTags (pairs_kvs ∅ tags) (pairs_keys tags)))
  /\ CommonTags tags
     = (if Nat.odd (length tags) then Panic panic_odd_Tags
        else Ok (CommonTags_func tags))
  /\ (forall o, CommonTags tags = Ok o ->
        o = CommonTags_func tags /\ exists t, newTags tags = Ok t).
Proof.
  split_and!.
  - apply newTags_spec.
  - apply CommonTags_spec.
  - intros o. rewrite CommonTags_spec, newTags_spec.
    destruct (Nat.odd (length tags)); [done|].
    intros [= <-]. split; [done|by eexists].
Qed.


(** What [Clone] leaves in the parent's tag set: the parent's tags with the
    [CommonTags] options of the call appended. *)
Lemma Clone_parent_tags (c : Client) (opts : list Option) (w : world)
    (l : loc) (cn : conn) (tl : loc) (t : Tags) :
  c_conn c = Some l -> connHeap w !! l = Some cn ->
  c_tags c = Some tl -> tagsHeap w !! tl = Some t ->
  Forall built opts ->
  tagsHeap (Clone c opts w).1 !! tl = Some (tags_after opts t).
Proof.
  intros Hl Hcn Htl Ht Hb.
  rewrite (Clone_spec c opts w l cn tl t Hl Hcn Htl Ht Hb). cbn [fst tagsHeap].
  rewrite lookup_insert_ne; [apply lookup_insert_eq|].
  intros Heq.
  apply (is_fresh (dom (<[tl:=tags_after opts t]> (tagsHeap w)))).
  rewrite Heq. apply elem_of_dom. rewrite lookup_insert_eq. by eexists.
Qed.

(** C4: when [newConn] reports an error, [New] still returns a Client
    together with that error and the Client is muted, so every metric,
    [Flush] and [Close] on it returns at once and changes nothing; but the
    Client has no tag set, and [Clone] on it panics whatever the options
    are, which is not a safe operation. *)
Theorem New_error_client_is_muted_but_Clone_panics
    (newConn : connConfig -> bool -> M (option loc * option error))
    (opts : list Option) (w : world) :
  Forall built opts ->
  (forall k m w0, exists w1 cp e, newConn k m w0 = (w1, Ok (cp, Some e))) ->
  exists c e w',
    New newConn opts w = (w', Ok (c, Some e))
    /\ c_muted c = true
    /\ (forall rv rr ops w'', run_ops rv rr c ops w'' = (w'', Ok tt))
    /\ (forall copts w'', exists msg, (Clone c copts w'').2 = Panic msg).
Proof.
  intros Hb Hfail. unfold New.
  set (l0 := fresh (dom (tagsHeap w))).
  set (w1 := mkWorld (<[l0 := emptyTags]> (tagsHeap w)) (connHeap w)).
  destruct (apply_options_spec opts (default_config (Some l0)) w1 l0 emptyTags
              Hb eq_refl (lookup_insert_eq _ _ _))
    as (conf & Hrun & _).
  match type of Hrun with _ = (?w2, _) =>
    destruct (Hfail (cfg_Conn conf) (Client_Muted (cfg_Client conf)) w2)
      as (w3 & cp & e & Hnc) end.
  exists (mkClient cp true 0 "" None 0), e, w3. split_and!.
  - erewrite bind_Ok by reflexivity. fold l0 w1.
    erewrite bind_Ok by exact Hrun.
    erewrite bind_Ok by exact Hnc. reflexivity.
  - reflexivity.
  - intros rv rr ops w''. by apply run_ops_muted.
  - intros copts w''. by apply Clone_nil_tags.
Qed.

Lemma New_error_client_is_muted_but_Clone_panics_witness :
  exists c e w',
    New Ex.newConn_refused [] (mkWorld ∅ ∅) = (w', Ok (c, Some e))
    /\ c_muted c = true
    /\ (forall rv rr ops w'', run_ops rv rr c ops w'' = (w'', Ok tt))
    /\ (forall copts w'', exists msg, (Clone c copts w'').2 = Panic msg).
Proof.
  apply New_error_client_is_muted_but_Clone_panics.
  - constructor.
  - intros k m w0. unfold Ex.newConn_refused. by eexists _, _, _.
Defined.

(** C5: on a live Client and built options [Clone] returns; whenever
    [Clone] returns, on any Client and any options, the clone's [muted] is
    the parent's [muted] or the value the options leave in [Muted]; so every
    Client obtained from a muted one by cloning, any number of times, is
    muted, and on a muted Client every metric, [Flush] and [Close] returns
    before anything is read or written. *)
Theorem Clone_widens_muted (c : Client) (opts : list Option) (w : world) :
  live c w -> Forall built opts ->
  exists w' clone,
    Clone c opts w = (w', Ok clone)
    /\ c_muted clone = c_muted c || Muted_option opts
    /\ live clone w'
    /\ (forall d d' opts' v v', Clone d opts' v = (v', Ok d') ->
          c_muted d' = c_muted d || Muted_option opts')
    /\ (forall d, clone_of c d -> c_muted c = true -> c_muted d = true)
    /\ (forall d rv rr ops w'', c_muted d = true ->
          run_ops rv rr d ops w'' = (w'', Ok tt)).
Proof.
  intros [(l & cn & Hl & Hcn) (tl & t & Htl & Ht)] Hb.
  eexists _, _. split; [by apply (Clone_spec c opts w l cn tl t)|].
  split_and!.
  - reflexivity.
  - split; cbn [c_conn c_tags connHeap tagsHeap].
    + by exists l, cn.
    + eexists _, _. split; [reflexivity|]. apply lookup_insert_eq.
  - intros d d' opts' v v' Hclone.
    by destruct (Clone_result d d' opts' v v' Hclone) as (_ & ? & _).
  - intros d Hd Hm. induction Hd as [|d d' o' v v' _ IH Hclone]; [done|].
    destruct (Clone_result d d' o' v v' Hclone) as (_ & -> & _).
    by rewrite IH.
  - intros d rv rr ops w'' Hm. by apply run_ops_muted.
Qed.

Lemma Clone_widens_muted_witness :
  exists w' clone,
    Clone Ex.silent [Mute false] Ex.w0 = (w', Ok clone)
    /\ c_muted clone = c_muted Ex.silent || Muted_option [Mute false]
    /\ live clone w'
    /\ (forall d d' opts' v v', Clone d opts' v = (v', Ok d') ->
          c_muted d' = c_muted d || Muted_option opts')
    /\ (forall d, clone_of Ex.silent d -> c_muted Ex.silent = true ->
          c_muted d = true)
    /\ (forall d rv rr ops w'', c_muted d = true ->
          run_ops rv rr d ops w'' = (w'', Ok tt)).
Proof.
  apply Clone_widens_muted.
  - split; eexists 0%nat, _; split; reflexivity.
  - by repeat constructor.
Defined.

(** C6: on a muted Client every sequence of metrics, flushes and closes
    returns with memory and connections exactly as they were, so nothing is
    written; [Flush] and [Close] return at once; and cloning it writes
    nothing either. *)
Theorem muted_client_never_writes (rv : Value -> string) (rr : float32 -> string)
    (c : Client) (ops : list Op) (w : world) :
  c_muted c = true ->
  run_ops rv rr c ops w = (w, Ok tt)
  /\ (forall l, net_writes (run_ops rv rr c ops w).1 l = net_writes w l)
  /\ Flush c w = (w, Ok tt)
  /\ Close c w = (w, Ok tt)
  /\ (forall opts l, net_writes (Clone c opts w).1 l = net_writes w l).
Proof.
  intros Hm. split_and!.
  - by apply run_ops_muted.
  - intros l. by rewrite run_ops_muted.
  - unfold Flush. by rewrite Hm.
  - unfold Close. by rewrite Hm.
  - intros opts l. unfold net_writes. by rewrite Clone_connHeap.
Qed.

Lemma muted_client_never_writes_witness :
  run_ops Ex.render_value Ex.render_rate Ex.silent
          [OpCount "requests" (VInt 1) ["k"] 0; OpFlush; OpClose] Ex.w0
  = (Ex.w0, Ok tt).
Proof.
  exact (proj1 (muted_client_never_writes Ex.render_value Ex.render_rate
                  Ex.silent _ Ex.w0 eq_refl)).
Defined.

(** C9, as the code has it: on a live Client and built options [Clone]
    returns; whenever [Clone] returns, on any Client and any options, the
    clone's prefix is the parent's prefix followed by the argument of every
    [Prefix] option, in order, each with a dot appended unless it already
    ends with one (so the part added always ends with a dot, and an
    argument that ends with several dots keeps them); without a [Prefix]
    option the clone has the parent's prefix. *)
Theorem Clone_prefix_concatenates (c : Client) (opts : list Option) (w : world) :
  live c w -> Forall built opts ->
  exists w' clone,
    Clone c opts w = (w', Ok clone)
    /\ c_prefix clone = c_prefix c +:+ Prefix_options opts
    /\ (forall p, opts = [Prefix p] -> c_prefix clone = c_prefix c +:+ dotted p)
    /\ (forallb (fun o => negb (has_Prefix o)) opts = true ->
        c_prefix clone = c_prefix c)
    /\ (forall d d' opts' v v', Clone d opts' v = (v', Ok d') ->
          c_prefix d' = c_prefix d +:+ Prefix_options opts')
    /\ (forall p, HasSuffix (dotted p) "." = true).
Proof.
  intros [(l & cn & Hl & Hcn) (tl & t & Htl & Ht)] Hb.
  eexists _, _. split; [by apply (Clone_spec c opts w l cn tl t)|].
  cbn [c_prefix]. split_and!; [| | |
    intros d d' opts' v v' Hclone;
    by destruct (Clone_result d d' opts' v v' Hclone) as (_ & _ & ?) |].
  - reflexivity.
  - intros p ->. cbn [Prefix_options]. by rewrite str_app_nil_r.
  - intros Hnone.
    assert (Prefix_options opts = "") as ->; [|by rewrite str_app_nil_r].
    clear -Hnone. induction opts as [|o opts IH]; [reflexivity|].
    cbn [forallb] in Hnone. apply andb_true_iff in Hnone as [Ho Hnone].
    destruct o; cbn [Prefix_options]; try (by apply IH). done.
  - intros p. unfold dotted. destruct (HasSuffix p ".") eqn:E; [done|].
    apply HasSuffix_app.
Qed.

Lemma Clone_prefix_concatenates_witness :
  exists w' clone,
    Clone Ex.parent [Prefix "http"; Prefix "api."] Ex.w0 = (w', Ok clone)
    /\ c_prefix clone = "app.http.api.".
Proof.
  destruct (Clone_prefix_concatenates Ex.parent [Prefix "http"; Prefix "api."] Ex.w0)
    as (w' & clone & Hrun & Hp & _).
  - split; eexists 0%nat, _; split; reflexivity.
  - by repeat constructor.
  - exists w', clone. split; [exact Hrun|exact Hp].
Defined.

(** C9 as stated fails: the argument of [Prefix] is not brought to exactly
    one trailing dot; [Prefix("a..")] appends [a..] to the parent's
    prefix. *)
Lemma Prefix_keeps_extra_dots :
  ~ (forall (c clone : Client) (p : string) (w w' : world),
       Clone c [Prefix p] w = (w', Ok clone) ->
       exists q, c_prefix clone = c_prefix c +:+ q /\ one_trailing_dot q = true).
Proof.
  intros H.
  destruct (H Ex.parent
              (mkClient (Some 0%nat) false f32_one "app.a.." (Some 1%nat) Datadog)
              "a.." Ex.w0 (Clone Ex.parent [Prefix "a.."] Ex.w0).1)
    as (q & Hq & Hdot).
  - vm_compute. reflexivity.
  - cbn [c_prefix Ex.parent] in Hq.
    change "app.a.." with ("app." +:+ "a..") in Hq.
    apply (inj (String.app "app.")) in Hq. subst q. discriminate Hdot.
Qed.

(** C10: [Clone] with a [CommonTags] option changes the parent's own tag
    set: cloning a Client whose tags are [{a:1}] with [CommonTags("b","2")]
    leaves [{a:1, b:2}] in the parent. *)
Theorem Clone_CommonTags_appends_to_parent_tags :
  exists o w' clone,
    CommonTags ["b"; "2"] = Ok o
    /\ Clone Ex.parent [o] Ex.w0 = (w', Ok clone)
    /\ c_tags Ex.parent = Some 0%nat
    /\ tagsHeap Ex.w0 !! 0%nat = Some (mkTags {[ "a" := "1" ]} ["a"])
    /\ tagsHeap w' !! 0%nat
       = Some (mkTags {[ "a" := "1"; "b" := "2" ]} ["a"; "b"]).
Proof.
  exists (CommonTags_func ["b"; "2"]),
         (Clone Ex.parent [CommonTags_func ["b"; "2"]] Ex.w0).1,
         (mkClient (Some 0%nat) false f32_one "app." (Some 1%nat) Datadog).
  split_and!; vm_compute; reflexivity.
Qed.

(** On a closed connection a metric, a flush or a close returns; metrics
    and flushes leave the connection as it is, a close keeps it closed with
    the same buffer and the same writes. *)
Lemma run_op_closed_conn (rv : Value -> string) (rr : float32 -> string)
    (c : Client) (op : Op) (w : world) (l : loc) (cn : conn) :
  on_connection l w c -> connHeap w !! l = Some cn -> conn_closed cn = true ->
  even_tags op ->
  exists cn',
    run_op rv rr c op w
    = (mkWorld (tagsHeap w) (<[l := cn']> (connHeap w)), Ok tt)
    /\ conn_closed cn' = true
    /\ conn_buf cn' = conn_buf cn
    /\ w_writes (conn_w cn') = w_writes (conn_w cn)
    /\ (op <> OpClose -> cn' = cn).
Proof.
  intros [Hl (tl & Htl & [t Ht])] Hcn Hclosed Heven.
  assert (exists cn', (w, Ok tt)
            = (mkWorld (tagsHeap w) (<[l := cn']> (connHeap w)), Ok tt)
            /\ conn_closed cn' = true
            /\ conn_buf cn' = conn_buf cn
            /\ w_writes (conn_w cn') = w_writes (conn_w cn)
            /\ (op <> OpClose -> cn' = cn)) as Hsame.
  { exists cn. by rewrite world_same. }
  destruct op; cbn [run_op even_tags] in *;
    unfold Increment, Count, Gauge, Timing, Histogram, Unique, Flush, Close;
    try (destruct (skip c r); [exact Hsame|]);
    try (destruct (c_muted c); [exact Hsame|]);
    try (erewrite bind_Ok; [|unfold lift; by rewrite newTags_even]);
    try (erewrite bind_Ok; [|unfold load_tags; by rewrite Htl, Ht]);
    unfold conn_metric, conn_gauge, conn_unique;
    rewrite Hl; erewrite with_conn_Some by exact Hcn;
    rewrite ?emit_closed, ?flush_closed by done;
    try (by exists cn).
  destruct (Close_locked_fields cn) as (Hc & _ & Hw).
  exists (Close_locked cn). split_and!; [done|done| | |done].
  - unfold Close_locked, w_Close. rewrite flush_closed by done.
    cbn [set_closed conn_buf].
    by destruct (handleError_fields
                   (if w_closed (conn_w cn) then Some err_closed_conn else None)
                   (set_w cn (mkWriter (w_writes (conn_w cn)) true)))
      as (-> & _).
  - by rewrite Hw, flush_closed.
Qed.

(** [Clone] of a Client on a connection returns a Client on that
    connection, keeps every allocated tag set allocated and leaves the
    connections alone. *)
Lemma Clone_on_connection (c : Client) (opts : list Option) (w : world)
    (l : loc) (cn : conn) :
  on_connection l w c -> connHeap w !! l = Some cn -> Forall built opts ->
  exists w' d,
    Clone c opts w = (w', Ok d)
    /\ connHeap w' = connHeap w
    /\ on_connection l w' d
    /\ (forall tl, is_Some (tagsHeap w !! tl) -> is_Some (tagsHeap w' !! tl)).
Proof.
  intros [Hl (tl & Htl & [t Ht])] Hcn Hb.
  eexists _, _. split; [by apply (Clone_spec c opts w l cn tl t)|].
  cbn [connHeap tagsHeap]. split_and!.
  - reflexivity.
  - split; [reflexivity|]. eexists. split; [reflexivity|].
    cbn [tagsHeap]. rewrite lookup_insert_eq. by eexists.
  - intros tl' Hsome. rewrite !lookup_insert_is_Some'. by right; right.
Qed.

(** C7, as the code has it: once [Close] has returned on an unmuted Client
    its connection is marked closed, and from any state in which it is,
    every program of metrics, flushes, closes and clones, interleaved over
    any Clients on that connection that hold a tag set (as every Client
    from [New] without error or from [Clone] does), with metric-tag lists of
    even length and built options, returns without panic, writes nothing to
    any socket and leaves the connection closed with its buffer as it was;
    metrics, flushes and clones leave every connection exactly as it was (a
    further [Close] closes the socket again and reports its error to the
    handler), and the Clients, with the clones made on the way, are again
    on that closed connection with their tag sets. *)
Theorem closed_connection_operations_write_nothing
    (rv : Value -> string) (rr : float32 -> string)
    (c0 : Client) (w0 w1 : world) :
  c_muted c0 = false ->
  Close c0 w0 = (w1, Ok tt) ->
  exists l,
    c_conn c0 = Some l
    /\ closed_at w1 l
    /\ forall (w : world) (pool : list Client) (steps : list Step),
         closed_at w l ->
         Forall (on_connection l w) pool ->
         Forall step_ok steps ->
         exists w' pool' cn cn',
           run_steps rv rr pool steps w = (w', Ok pool')
           /\ connHeap w !! l = Some cn
           /\ connHeap w' = <[l := cn']> (connHeap w)
           /\ conn_closed cn' = true
           /\ conn_buf cn' = conn_buf cn
           /\ w_writes (conn_w cn') = w_writes (conn_w cn)
           /\ (forallb (fun s => negb (is_Close s)) steps = true -> cn' = cn)
           /\ (forall l', net_writes w' l' = net_writes w l')
           /\ pool `prefix_of` pool'
           /\ Forall (on_connection l w') pool'.
Proof.
  intros Hm Hclose.
  destruct (Close_unmuted c0 w0 w1 Hm Hclose) as (l & cn0 & Hl & Hcn0 & ->).
  exists l. split; [done|]. split.
  { exists (Close_locked cn0). cbn [connHeap]. rewrite lookup_insert_eq.
    split; [done|]. by destruct (Close_locked_fields cn0) as (? & _). }
  clear. intros w pool steps. revert w pool.
  induction steps as [|s steps IH]; intros w pool (cn & Hcn & Hclosed) Hpool Hok.
  - exists w, pool, cn, cn. cbn [run_steps]. split_and!; try done.
    by rewrite insert_id.
  - apply Forall_cons in Hok as [Hs Hok].
    assert (forall w1 cn1,
              connHeap w1 = <[l := cn1]> (connHeap w) ->
              conn_closed cn1 = true -> conn_buf cn1 = conn_buf cn ->
              w_writes (conn_w cn1) = w_writes (conn_w cn) ->
              (is_Close s = false -> cn1 = cn) ->
              forall pool1, pool `prefix_of` pool1 ->
              Forall (on_connection l w1) pool1 ->
              forall r, run_steps rv rr pool1 steps w1 = r ->
              exists w' pool' cn',
                r = (w', Ok pool')
                /\ connHeap w' = <[l := cn']> (connHeap w)
                /\ conn_closed cn' = true
                /\ conn_buf cn' = conn_buf cn
                /\ w_writes (conn_w cn') = w_writes (conn_w cn)
                /\ (forallb (fun s => negb (is_Close s)) (s :: steps) = true ->
                    cn' = cn)
                /\ (forall l', net_writes w' l' = net_writes w l')
                /\ pool `prefix_of` pool'
                /\ Forall (on_connection l w') pool') as Hrest.
    { intros w1 cn1 Hw1 Hc1 Hb1 Hwr1 Hsame pool1 Hpre Hpool1 r <-.
      destruct (IH w1 pool1) as (w' & pool' & cn1' & cn' & Hrun & Hcn1' & Hw'
                                 & Hc' & Hb' & Hwr' & Hsame' & _ & Hpre' & Hpool');
        [|done|done|].
      { exists cn1. split; [|done]. rewrite Hw1. apply lookup_insert_eq. }
      rewrite Hw1, lookup_insert_eq in Hcn1'. injection Hcn1' as <-.
      exists w', pool', cn'. split_and!; try done.
      - by rewrite Hw', Hw1, insert_insert_eq.
      - congruence.
      - congruence.
      - cbn [forallb]. intros [Hns Hrest]%andb_true_iff.
        apply negb_true_iff in Hns. rewrite (Hsame' Hrest). by apply Hsame.
      - intros l'. unfold net_writes. rewrite Hw', Hw1, insert_insert_eq.
        destruct (decide (l = l')) as [<-|Hne].
        + by rewrite lookup_insert_eq, Hcn, Hwr', Hwr1.
        + by rewrite lookup_insert_ne.
      - by etrans. }
    assert (exists w' pool' cn',
              run_steps rv rr pool (s :: steps) w = (w', Ok pool')
              /\ connHeap w' = <[l := cn']> (connHeap w)
              /\ conn_closed cn' = true
              /\ conn_buf cn' = conn_buf cn
              /\ w_writes (conn_w cn') = w_writes (conn_w cn)
              /\ (forallb (fun s => negb (is_Close s)) (s :: steps) = true ->
                  cn' = cn)
              /\ (forall l', net_writes w' l' = net_writes w l')
              /\ pool `prefix_of` pool'
              /\ Forall (on_connection l w') pool') as (w' & pool' & cn' & H).
    { assert (connHeap w = <[l := cn]> (connHeap w)) as Hid
        by (by rewrite insert_id).
      destruct s as [i op|i opts]; cbn [run_steps step_ok] in *.
      - destruct (pool !! i) as [c|] eqn:Hi.
        + assert (on_connection l w c) as Hc.
          { eapply Forall_lookup_1; [exact Hpool|exact Hi]. }
          destruct (run_op_closed_conn rv rr c op w l cn Hc Hcn Hclosed Hs)
            as (cn1 & Hrun & Hc1 & Hb1 & Hwr1 & Hsame).
          erewrite bind_Ok by exact Hrun.
          eapply (Hrest (mkWorld (tagsHeap w) (<[l := cn1]> (connHeap w))) cn1);
            [reflexivity|exact Hc1|exact Hb1|exact Hwr1| |reflexivity
            |exact Hpool|reflexivity].
          intros Hnc. apply Hsame. by intros ->.
        + by eapply (Hrest w cn);
            [exact Hid|done|done|done|done|reflexivity|exact Hpool|reflexivity].
      - destruct (pool !! i) as [c|] eqn:Hi.
        + assert (on_connection l w c) as Hc.
          { eapply Forall_lookup_1; [exact Hpool|exact Hi]. }
          destruct (Clone_on_connection c opts w l cn Hc Hcn Hs)
            as (w1 & d & Hrun & Hconn & Hd & Halloc).
          erewrite bind_Ok by exact Hrun.
          eapply (Hrest w1 cn);
            [congruence|done|done|done|done|by apply prefix_app_r| |reflexivity].
          apply Forall_app. split; [|by apply Forall_singleton].
          eapply Forall_impl; [exact Hpool|].
          intros c' [Hl' (tl' & Htl' & Hsome')]. split; [done|].
          exists tl'. split; [done|]. by apply Halloc.
        + by eapply (Hrest w cn);
            [exact Hid|done|done|done|done|reflexivity|exact Hpool|reflexivity]. }
    exists w', pool', cn, cn'. destruct H as (? & ? & ? & ? & ? & ? & ? & ? & ?).
    by split_and!.
Qed.

Lemma closed_connection_operations_write_nothing_witness :
  let w := (Close Ex.parent Ex.w0).1 in
  let steps := [StepClone 0 [Prefix "db"; CommonTags_func ["b"; "2"]];
                StepOp 1 (OpCount "requests" (VInt 1) ["k"; "v"] f32_one);
                StepOp 0 (OpGauge "load" (VInt 3) [] f32_one);
                StepOp 1 OpFlush;
                StepOp 1 OpClose;
                StepClone 1 [];
                StepOp 2 (OpUnique "users" "u1" f32_one);
                StepOp 0 OpFlush] in
  c_muted Ex.parent = false
  /\ Close Ex.parent Ex.w0 = (w, Ok tt)
  /\ closed_at w 0%nat
  /\ Forall (on_connection 0%nat w) [Ex.parent]
  /\ Forall step_ok steps
  /\ exists w' pool' cn cn',
       run_steps Ex.render_value Ex.render_rate [Ex.parent] steps w
       = (w', Ok pool')
       /\ connHeap w !! 0%nat = Some cn
       /\ connHeap w' = <[0%nat := cn']> (connHeap w)
       /\ conn_closed cn' = true
       /\ conn_buf cn' = conn_buf cn
       /\ w_writes (conn_w cn') = w_writes (conn_w cn)
       /\ (forallb (fun s => negb (is_Close s)) steps = true -> cn' = cn)
       /\ (forall l', net_writes w' l' = net_writes w l')
       /\ [Ex.parent] `prefix_of` pool'
       /\ Forall (on_connection 0%nat w') pool'.
Proof.
  intros w steps.
  destruct (closed_connection_operations_write_nothing
              Ex.render_value Ex.render_rate Ex.parent Ex.w0 w
              eq_refl eq_refl) as (l & Hl & Hclosed & Hall).
  injection Hl as <-.
  assert (Forall (on_connection 0%nat w) [Ex.parent]) as Hpool.
  { apply Forall_singleton. split; [reflexivity|].
    exists 0%nat. split; [reflexivity|]. by eexists. }
  assert (Forall step_ok steps) as Hsteps.
  { repeat constructor; cbn; try exists 0%nat; try exists 1%nat; reflexivity. }
  split_and!; [reflexivity|reflexivity|exact Hclosed|exact Hpool|exact Hsteps|].
  exact (Hall w [Ex.parent] steps Hclosed Hpool Hsteps).
Defined.

(** C7 as stated fails three times.  [Close] on a muted clone returns
    without closing the connection it shares, so a later metric and flush
    on another clone of the same parent is written to the socket; after
    [Close] on an unmuted Client a metric with an odd number of tag
    arguments still panics; and a second [Close] is not a no-op: it closes
    the socket again and the socket's error goes to the error handler. *)
Lemma Close_does_not_silence_every_operation :
  (exists m s w1 w2 w3 w4,
     Clone Ex.parent [Mute true] Ex.w0 = (w1, Ok m)
     /\ Clone Ex.parent [] w1 = (w2, Ok s)
     /\ c_conn s = c_conn m
     /\ Close m w2 = (w3, Ok tt)
     /\ run_ops Ex.render_value Ex.render_rate s
                [OpCount "requests" (VInt 1) [] 0; OpFlush] w3
        = (w4, Ok tt)
     /\ net_writes w3 0%nat = []
     /\ net_writes w4 0%nat = ["app.requests:1|c|#a:1" +:+ separator])
  /\ (exists w1 w2,
        Close Ex.parent Ex.w0 = (w1, Ok tt)
        /\ run_op Ex.render_value Ex.render_rate Ex.parent
                  (OpCount "requests" (VInt 1) ["k"] 0) w1
           = (w2, Panic panic_odd_newTags))
  /\ (exists w1 w2 cn1 cn2,
        Close Ex.parent Ex.w0_handled = (w1, Ok tt)
        /\ Close Ex.parent w1 = (w2, Ok tt)
        /\ connHeap w1 !! 0%nat = Some cn1
        /\ connHeap w2 !! 0%nat = Some cn2
        /\ conn_handled cn1 = []
        /\ conn_handled cn2 = [err_closed_conn]).
Proof.
  split_and!.
  - set (r1 := Clone Ex.parent [Mute true] Ex.w0).
    set (r2 := Clone Ex.parent [] r1.1).
    exists (mkClient (Some 0%nat) true f32_one "app." (Some 1%nat) Datadog),
           (mkClient (Some 0%nat) false f32_one "app." (Some 2%nat) Datadog),
           r1.1, r2.1, r2.1,
           (run_ops Ex.render_value Ex.render_rate
              (mkClient (Some 0%nat) false f32_one "app." (Some 2%nat) Datadog)
              [OpCount "requests" (VInt 1) [] 0; OpFlush] r2.1).1.
    split_and!; vm_compute; reflexivity.
  - exists (Close Ex.parent Ex.w0).1, (Close Ex.parent Ex.w0).1.
    split; vm_compute; reflexivity.
  - exists (Close Ex.parent Ex.w0_handled).1,
           (Close Ex.parent (Close Ex.parent Ex.w0_handled).1).1,
           (mkConn Datadog true (mkWriter [] true) "" 1440 (Some 7%nat) []),
           (mkConn Datadog true (mkWriter [] true) "" 1440 (Some 7%nat)
                   [err_closed_conn]).
    split_and!; vm_compute; reflexivity.
Qed.

End Claims.

(** * Further properties of the code *)

(** ** Tag sets as the package builds them *)

Section TagsInvariant.

Implicit Types (m : gmap string string) (tags ks : list string) (t : Tags).

(** Induction over a list two elements at a time. *)
Lemma pairs_ind (P : list string -> Prop) :
  P [] -> (forall x, P [x]) ->
  (forall k v rest, P rest -> P (k :: v :: rest)) ->
  forall tags, P tags.
Proof.
  intros H0 H1 H2.
  assert (forall tags, P tags /\ forall x, P (x :: tags)) as H.
  { induction tags as [|y tags [IH1 IH2]]; [by split|].
    split; [apply IH2|]. intros x. by apply H2. }
  intros tags. apply H.
Qed.

Lemma pairs_kvs_is_Some tags : forall m k,
  is_Some (pairs_kvs m tags !! k) <-> is_Some (m !! k) \/ k ∈ pairs_keys tags.
Proof.
  induction tags as [| x |k0 v0 rest IH] using pairs_ind; intros m k;
    cbn [pairs_kvs pairs_keys].
  - rewrite elem_of_nil. tauto.
  - rewrite elem_of_nil. tauto.
  - rewrite IH, elem_of_cons, lookup_insert_is_Some'.
    destruct (decide (k0 = k)) as [->|Hne]; [tauto|].
    split; [intros [[?|?]|?]|intros [?|[?|?]]]; try tauto; congruence.
Qed.

Lemma pairs_kvs_not_key tags : forall m k,
  k ∉ pairs_keys tags -> pairs_kvs m tags !! k = m !! k.
Proof.
  induction tags as [| x |k0 v0 rest IH] using pairs_ind; intros m k Hk;
    cbn [pairs_kvs pairs_keys] in *; [done|done|].
  apply not_elem_of_cons in Hk as [Hne Hk].
  rewrite IH by done. by rewrite lookup_insert_ne.
Qed.

Lemma pairs_kvs_app pre : forall m rest,
  Nat.even (length pre) = true ->
  pairs_kvs m (pre ++ rest) = pairs_kvs (pairs_kvs m pre) rest.
Proof.
  induction pre as [| x |k0 v0 pre IH] using pairs_ind; intros m rest Hev.
  - reflexivity.
  - discriminate Hev.
  - cbn [app pairs_kvs]. apply IH. exact Hev.
Qed.

Lemma pairs_keys_length tags :
  Nat.even (length tags) = true ->
  (2 * length (pairs_keys tags))%nat = length tags.
Proof.
  induction tags as [| x |k0 v0 rest IH] using pairs_ind; intros Hev.
  - reflexivity.
  - discriminate Hev.
  - cbn [pairs_keys length] in *. specialize (IH Hev). lia.
Qed.

Lemma pairs_keys_lookup tags : forall i : nat,
  Nat.even (length tags) = true ->
  pairs_keys tags !! i = tags !! (2 * i)%nat.
Proof.
  induction tags as [| x |k0 v0 rest IH] using pairs_ind; intros i Hev.
  - reflexivity.
  - discriminate Hev.
  - destruct i as [|i]; [reflexivity|].
    cbn [pairs_keys]. replace (2 * S i)%nat with (S (S (2 * i))) by lia.
    cbn [lookup list_lookup]. by apply IH.
Qed.

Lemma newTags_Ok_even tags t :
  newTags tags = Ok t ->
  Nat.even (length tags) = true
  /\ t = mkTags (pairs_kvs ∅ tags) (pairs_keys tags).
Proof.
  rewrite newTags_spec, <- Nat.negb_even.
  destruct (Nat.even (length tags)); [|done].
  intros [= <-]. by split.
Qed.

Lemma Tags_wf_pairs tags :
  Tags_wf (mkTags (pairs_kvs ∅ tags) (pairs_keys tags)).
Proof.
  intros k. cbn [keys kvs]. rewrite pairs_kvs_is_Some, lookup_empty.
  split; [by right|]. intros [[? ?]|?]; done.
Qed.

Lemma Tags_wf_append (r o : Tags) : Tags_wf r -> Tags_wf (Tags_append r o).
Proof.
  intros Hwf k. unfold Tags_append.
  destruct (append_fold (kvs o) (keys o) r)
    as (added & Hkeys & _ & _ & Hin & Hval).
  rewrite Hkeys, Hval, elem_of_app, (Hwf k).
  destruct (decide (k ∈ added)) as [Hk|Hk].
  - split; [by eexists|by right].
  - split; [intros [?|?]; done|by left].
Qed.

Lemma NoDup_append (r o : Tags) :
  Tags_wf r -> NoDup (keys r) -> NoDup (keys (Tags_append r o)).
Proof.
  intros Hwf Hnd. unfold Tags_append.
  destruct (append_fold (kvs o) (keys o) r)
    as (added & Hkeys & Hnda & _ & Hin & _).
  rewrite Hkeys. apply NoDup_app. split_and!; [done| |done].
  intros k Hk Hka. apply Hin in Hka as [_ Hnone].
  apply (proj1 (Hwf k)) in Hk as [v Hv]. congruence.
Qed.

Lemma clone_kvs_lookup m ks (k : string) :
  clone_kvs m ks !! k = if decide (k ∈ ks) then Some (map_get m k) else None.
Proof.
  unfold clone_kvs.
  assert (forall acc : gmap string string,
            foldl (fun acc k => <[k := map_get m k]> acc) acc ks !! k
            = if decide (k ∈ ks) then Some (map_get m k) else acc !! k) as H.
  { induction ks as [|k0 ks IH]; intros acc.
    - cbn. rewrite decide_False; [done|]. apply not_elem_of_nil.
    - cbn [foldl]. rewrite IH.
      destruct (decide (k ∈ ks)) as [Hk|Hk].
      + by rewrite decide_True by (by apply elem_of_cons; right).
      + destruct (decide (k = k0)) as [->|Hne].
        * rewrite decide_True by (by apply elem_of_cons; left).
          by rewrite lookup_insert_eq.
        * rewrite lookup_insert_ne by done.
          rewrite decide_False; [done|].
          intros [?|?]%elem_of_cons; done. }
  by rewrite H.
Qed.

Lemma clone_kvs_wf t : Tags_wf t -> clone_kvs (kvs t) (keys t) = kvs t.
Proof.
  intros Hwf. apply map_eq. intros k. rewrite clone_kvs_lookup.
  destruct (decide (k ∈ keys t)) as [Hk|Hk].
  - apply (proj1 (Hwf k)) in Hk as [v Hv]. unfold map_get. by rewrite Hv.
  - destruct (kvs t !! k) eqn:E; [|done].
    exfalso. apply Hk, (proj2 (Hwf k)). by eexists.
Qed.

Lemma map_ext_keys (f g : string -> string) ks :
  (forall k, k ∈ ks -> f k = g k) -> map f ks = map g ks.
Proof.
  induction ks as [|k ks IH]; intros H; [reflexivity|].
  cbn [map]. rewrite H by (by apply elem_of_cons; left).
  f_equal. apply IH. intros k' Hk'. apply H. by apply elem_of_cons; right.
Qed.

(** The printed form only reads the values of the listed keys. *)
Lemma Tags_format_ext (t t' : Tags) (tf : TagFormat) :
  keys t' = keys t ->
  (forall k, k ∈ keys t -> map_get (kvs t') k = map_get (kvs t) k) ->
  Tags_format t' tf = Tags_format t tf.
Proof.
  intros Hk Hv.
  destruct (decide (keys t = [])) as [He|He].
  { rewrite !Tags_format_empty; congruence. }
  destruct (decide (tf = InfluxDB)) as [->|H1].
  { rewrite !Tags_format_InfluxDB, Hk. f_equal. apply map_ext_keys.
    intros k Hin. unfold influx_item. by rewrite Hv. }
  destruct (decide (tf = Datadog)) as [->|H2].
  { rewrite !Tags_format_Datadog by congruence. rewrite Hk. do 2 f_equal.
    apply map_ext_keys. intros k Hin. unfold datadog_item. by rewrite Hv. }
  by rewrite !Tags_format_unknown.
Qed.

End TagsInvariant.

Section TagsExtras.

(** X1: when [newTags] returns, the key list holds the arguments at the
    even positions, in order and with repetitions kept, and a key given
    several times has the value of its last pair. *)
Theorem newTags_last_pair_wins (tags : list string) (t : Tags) :
  newTags tags = Ok t ->
  (2 * length (keys t))%nat = length tags
  /\ (forall i : nat, keys t !! i = tags !! (2 * i)%nat)
  /\ (forall pre k v post,
        tags = (pre ++ k :: v :: post)%list ->
        Nat.even (length pre) = true ->
        k ∉ pairs_keys post ->
        kvs t !! k = Some v).
Proof.
  intros H. apply newTags_Ok_even in H as [Hev ->]. cbn [keys kvs].
  split_and!.
  - by apply pairs_keys_length.
  - intros i. by apply pairs_keys_lookup.
  - intros pre k v post -> Hpre Hk.
    rewrite pairs_kvs_app by done. cbn [pairs_kvs].
    rewrite pairs_kvs_not_key by done. apply lookup_insert_eq.
Qed.

Lemma newTags_last_pair_wins_witness :
  exists t, newTags ["a"; "1"; "b"; "2"; "a"; "3"] = Ok t
            /\ keys t = ["a"; "b"; "a"] /\ kvs t !! "a" = Some "3".
Proof.
  exists (mkTags (pairs_kvs ∅ ["a"; "1"; "b"; "2"; "a"; "3"]) ["a"; "b"; "a"]).
  split; [vm_compute; reflexivity|]. split; [reflexivity|].
  refine (proj2 (proj2 (newTags_last_pair_wins
                          ["a"; "1"; "b"; "2"; "a"; "3"] _ _))
            ["a"; "1"; "b"; "2"] "a" "3" [] eq_refl eq_refl _).
  - vm_compute. reflexivity.
  - apply not_elem_of_nil.
Defined.

(** X2: a tag set that lists exactly the keys its map holds still does
    after [Tags.append], whatever the other set is, and if its key list has
    no repetition the result has none either; the sets [newTags] returns
    and the empty set are of that kind. *)
Theorem Tags_keys_match_map (r o : Tags) :
  Tags_wf r ->
  Tags_wf (Tags_append r o)
  /\ (NoDup (keys r) -> NoDup (keys (Tags_append r o)))
  /\ (forall tags t, newTags tags = Ok t -> Tags_wf t)
  /\ Tags_wf emptyTags.
Proof.
  intros Hwf. split_and!.
  - by apply Tags_wf_append.
  - by apply NoDup_append.
  - intros tags t H. apply newTags_Ok_even in H as [_ ->]. apply Tags_wf_pairs.
  - exact (Tags_wf_pairs []).
Qed.

Lemma Tags_keys_match_map_witness :
  NoDup (keys (Tags_append
                 (mkTags (pairs_kvs ∅ ["a"; "1"]) (pairs_keys ["a"; "1"]))
                 (mkTags {[ "a" := "2"; "b" := "3" ]} ["a"; "b"; "a"; "b"]))).
Proof.
  refine (proj1 (proj2 (Tags_keys_match_map _ _ (Tags_wf_pairs ["a"; "1"]))) _).
  cbn [keys pairs_keys]. apply NoDup_singleton.
Defined.

(** X3: [Tags.clone] never fails; the copy has the same keys in the same
    order, prints the same in every dialect, lists exactly the keys its map
    holds, and is equal to the original whenever the original does. *)
Theorem Tags_clone_is_a_copy (t : Tags) :
  exists t',
    Tags_clone t = Ok t'
    /\ keys t' = keys t
    /\ (forall tf, Tags_format t' tf = Tags_format t tf)
    /\ Tags_wf t'
    /\ (Tags_wf t -> t' = t).
Proof.
  eexists. split; [apply Tags_clone_spec|]. cbn [keys kvs]. split_and!.
  - reflexivity.
  - intros tf. apply Tags_format_ext; [reflexivity|].
    intros k Hk. cbn [kvs]. unfold map_get at 1.
    by rewrite clone_kvs_lookup, decide_True.
  - intros k. cbn [keys kvs]. rewrite clone_kvs_lookup.
    destruct (decide (k ∈ keys t)) as [Hk|Hk].
    + split; [by eexists|done].
    + split; [done|]. by intros [? ?].
  - intros Hwf. rewrite clone_kvs_wf by done. by destruct t.
Qed.

End TagsExtras.

(** ** [TagFormat.split] *)

Section SplitFacts.

Implicit Types (s p : string) (c : ascii) (m : gmap string string).

Lemma free_of_app c s1 s2 :
  free_of c (s1 +:+ s2) = free_of c s1 && free_of c s2.
Proof.
  induction s1 as [|a s1 IH]; [reflexivity|].
  rewrite str_app_cons. cbn [free_of]. rewrite IH. by rewrite andb_assoc.
Qed.

Lemma Split_free c s : free_of c s = true -> Split s c = [s].
Proof.
  induction s as [|a s IH]; [reflexivity|].
  cbn [free_of Split]. intros [Ha Hs]%andb_true_iff.
  apply negb_true_iff in Ha. by rewrite Ha, IH.
Qed.

Lemma Split_app_sep c s rest :
  free_of c s = true -> Split (s +:+ String c rest) c = s :: Split rest c.
Proof.
  induction s as [|a s IH].
  - intros _. rewrite str_app_nil_l. cbn [Split]. by rewrite Ascii.eqb_refl.
  - cbn [free_of]. intros [Ha Hs]%andb_true_iff.
    apply negb_true_iff in Ha. rewrite str_app_cons. cbn [Split].
    by rewrite Ha, IH.
Qed.

(** A piece with a separator splits into at least two fields, a piece
    without into one. *)
Lemma Split_length_ge c s :
  (1 <= length (Split s c))%nat
  /\ (free_of c s = false -> (2 <= length (Split s c))%nat).
Proof.
  induction s as [|a s [IH1 IH2]]; [split; [simpl; lia|done]|].
  cbn [Split free_of]. destruct (Ascii.eqb a c).
  - split; [simpl; lia|]. intros _. simpl. lia.
  - cbn [negb andb]. destruct (Split s c) as [|x rest] eqn:E; [simpl in IH1; lia|].
    split; [simpl; lia|]. intros H. specialize (IH2 H). simpl in *. lia.
Qed.

(** The pieces printed with a leading comma each. *)
Lemma Split_leading_commas (bs : list string) : forall b1 : string,
  free_of ","%char b1 = true ->
  Forall (fun b => free_of ","%char b = true) bs ->
  Split (b1 +:+ String.concat "" (map (fun b => "," +:+ b) bs)) ","%char
  = b1 :: bs.
Proof.
  induction bs as [|b2 bs IH]; intros b1 H1 Hall.
  - cbn [map String.concat]. rewrite str_app_nil_r. by apply Split_free.
  - apply Forall_cons in Hall as [H2 Hall].
    rewrite map_cons, concat_empty_sep_cons, str_app_assoc.
    change ("," +:+ (b2 +:+ String.concat "" (map (fun b => "," +:+ b) bs)))
      with (String ","%char (b2 +:+ String.concat "" (map (fun b => "," +:+ b) bs))).
    rewrite Split_app_sep by done. f_equal. by apply IH.
Qed.

(** The pieces printed with a comma between them. *)
Lemma Split_joined (bs : list string) : forall b1 : string,
  free_of ","%char b1 = true ->
  Forall (fun b => free_of ","%char b = true) bs ->
  Split (String.concat "," (b1 :: bs)) ","%char = b1 :: bs.
Proof.
  induction bs as [|b2 bs IH]; intros b1 H1 Hall.
  - cbn [String.concat]. by apply Split_free.
  - apply Forall_cons in Hall as [H2 Hall].
    change (String.concat "," (b1 :: b2 :: bs))
      with (b1 +:+ String ","%char (String.concat "," (b2 :: bs))).
    rewrite Split_app_sep by done. f_equal. by apply IH.
Qed.

Lemma slice_from_1 c s : slice_from (String c s) 1 = Ok s.
Proof.
  unfold slice_from. cbn [String.length Nat.ltb Nat.leb].
  cbn [Nat.sub substring]. by rewrite Nat.sub_0_r, substring_all.
Qed.

Lemma slice_from_2 c c' s : slice_from (String c (String c' s)) 2 = Ok s.
Proof.
  unfold slice_from. cbn [String.length Nat.ltb Nat.leb].
  cbn [Nat.sub substring]. by rewrite Nat.sub_0_r, substring_all.
Qed.

(** The loop on the pieces [k sep v] of a tag set. *)
Lemma split_loop_printed c m (ks : list string) :
  forall (i : nat) (acc : gmap string string) (pre : list string),
  length pre = i ->
  Forall (fun k => free_of c k = true /\ free_of c (map_get m k) = true) ks ->
  split_loop c (map (fun k => k +:+ String c (map_get m k)) ks) (Z.of_nat i)
             acc (pre ++ replicate (length ks) "")
  = Ok (mkTags (foldl (fun acc k => <[k := map_get m k]> acc) acc ks)
               (pre ++ ks)).
Proof.
  induction ks as [|k ks IH]; intros i acc pre Hpre Hall.
  - cbn. reflexivity.
  - apply Forall_cons in Hall as [[Hk Hv] Hall].
    cbn [map split_loop length replicate]. cbv zeta.
    rewrite Split_app_sep, (Split_free c (map_get m k)) by done.
    change (index [k; map_get m k] 0) with (Ok (A := string) k).
    change (index [k; map_get m k] 1) with (Ok (A := string) (map_get m k)).
    cbn [mbind result_bind].
    rewrite set_index_insert by (rewrite length_app; simpl; lia).
    cbn [mbind result_bind].
    rewrite insert_app_r_alt by lia.
    rewrite Hpre, Nat.sub_diag. cbn [insert list_insert].
    replace (pre ++ k :: replicate (length ks) "")%list
      with ((pre ++ [k]) ++ replicate (length ks) "")%list
      by (by rewrite <- app_assoc).
    replace (Z.of_nat i + 1) with (Z.of_nat (S i)) by lia.
    rewrite IH; [|rewrite length_app; simpl; lia|done].
    cbn [foldl]. by rewrite <- app_assoc.
Qed.

Lemma index_Panic {A} (l : list A) (i : Z) msg :
  index l i = Panic msg -> msg = panic_index.
Proof.
  unfold index. destruct (i <? 0); [by intros [= <-]|].
  destruct (l !! Z.to_nat i); [done|by intros [= <-]].
Qed.

Lemma set_index_Panic {A} (l : list A) (i : Z) (x : A) msg :
  set_index l i x = Panic msg -> msg = panic_index.
Proof.
  unfold set_index. destruct (_ || _); [by intros [= <-]|done].
Qed.

(** One piece without separator makes the loop panic at [kv[1]]. *)
Lemma split_loop_panics c (pairs : list string) :
  Exists (fun p => free_of c p = true) pairs ->
  forall (i : Z) (acc : gmap string string) (keys' : list string),
  split_loop c pairs i acc keys' = Panic panic_index.
Proof.
  induction 1 as [p pairs Hp|p pairs _ IH]; intros i acc keys'.
  - cbn [split_loop]. cbv zeta. by rewrite Split_free.
  - cbn [split_loop]. cbv zeta.
    destruct (index (Split p c) 0) as [k|msg] eqn:E0; cbn [mbind result_bind];
      [|by rewrite (index_Panic _ _ _ E0)].
    destruct (index (Split p c) 1) as [v|msg] eqn:E1; cbn [mbind result_bind];
      [|by rewrite (index_Panic _ _ _ E1)].
    destruct (set_index keys' i k) as [keys''|msg] eqn:E2;
      cbn [mbind result_bind]; [|by rewrite (set_index_Panic _ _ _ _ E2)].
    apply IH.
Qed.

(** With a separator in every piece the loop returns one key per piece. *)
Lemma split_loop_returns c (pairs : list string) :
  forall (i : nat) (acc : gmap string string) (pre : list string),
  length pre = i ->
  Forall (fun p => free_of c p = false) pairs ->
  exists t,
    split_loop c pairs (Z.of_nat i) acc (pre ++ replicate (length pairs) "")
    = Ok t
    /\ length (keys t) = (i + length pairs)%nat.
Proof.
  induction pairs as [|p pairs IH]; intros i acc pre Hpre Hall.
  - eexists. split; [reflexivity|]. cbn. rewrite app_nil_r. lia.
  - apply Forall_cons in Hall as [Hp Hall].
    destruct (Split_length_ge c p) as [_ H2]. specialize (H2 Hp).
    cbn [split_loop length replicate]. cbv zeta.
    destruct (Split p c) as [|k [|v rest]]; [simpl in H2; lia..|].
    change (index (k :: v :: rest) 0) with (Ok (A := string) k).
    change (index (k :: v :: rest) 1) with (Ok (A := string) v).
    cbn [mbind result_bind].
    rewrite set_index_insert by (rewrite length_app; simpl; lia).
    cbn [mbind result_bind].
    rewrite insert_app_r_alt by lia.
    rewrite Hpre, Nat.sub_diag. cbn [insert list_insert].
    replace (pre ++ k :: replicate (length pairs) "")%list
      with ((pre ++ [k]) ++ replicate (length pairs) "")%list
      by (by rewrite <- app_assoc).
    replace (Z.of_nat i + 1) with (Z.of_nat (S i)) by lia.
    destruct (IH (S i) (<[k:=v]> acc) (pre ++ [k])%list)
      as (t & Hrun & Hlen); [rewrite length_app; simpl; lia|done|].
    exists t. split; [done|]. lia.
Qed.

End SplitFacts.

Section SplitExtras.

Lemma not_free_dichotomy (c : ascii) (pairs : list string) :
  Exists (fun p => free_of c p = true) pairs
  \/ Forall (fun p => free_of c p = false) pairs.
Proof.
  induction pairs as [|p pairs [IH|IH]].
  - right. constructor.
  - left. by apply Exists_cons_tl.
  - destruct (free_of c p) eqn:E.
    + left. by apply Exists_cons_hd.
    + right. by constructor.
Qed.

(** X4: parsing what [format] printed gives back what [Tags.clone] returns,
    which is the tag set itself when its key list matches its map, for both
    dialects, provided no key and no value holds a comma or the dialect's
    key-value separator ([=] for InfluxDB, [:] for Datadog). *)
Theorem split_format_round_trip (t : Tags) (tf : TagFormat) (sep : ascii) :
  (tf = InfluxDB /\ sep = "="%char) \/ (tf = Datadog /\ sep = ":"%char) ->
  Forall (fun k => free_of ","%char k = true
                   /\ free_of ","%char (map_get (kvs t) k) = true) (keys t) ->
  Forall (fun k => free_of sep k = true
                   /\ free_of sep (map_get (kvs t) k) = true) (keys t) ->
  TagFormat_split tf (Tags_format t tf) = Tags_clone t
  /\ (Tags_wf t -> TagFormat_split tf (Tags_format t tf) = Ok t).
Proof.
  intros Htf Hcomma Hsep.
  assert (TagFormat_split tf (Tags_format t tf) = Tags_clone t) as Hmain.
  { rewrite Tags_clone_spec. unfold clone_kvs.
    destruct (keys t) as [|k1 ks] eqn:Ek.
    { rewrite Tags_format_empty by done. by destruct Htf as [[-> _]|[-> _]]. }
    set (body := fun k => k +:+ String sep (map_get (kvs t) k)).
    assert (Forall (fun b => free_of ","%char b = true) (map body (k1 :: ks)))
      as Hbodies.
    { apply Forall_fmap. eapply Forall_impl; [exact Hcomma|].
      intros k [H1 H2]. cbn. unfold body.
      rewrite free_of_app, H1. cbn [free_of andb]. rewrite H2.
      by destruct Htf as [[_ ->]|[_ ->]]. }
    cbn [map] in Hbodies. apply Forall_cons in Hbodies as [Hb1 Hbs].
    pose proof (split_loop_printed sep (kvs t) (k1 :: ks) 0 ∅ [] eq_refl Hsep)
      as Hloop.
    cbn [app] in Hloop. fold body in Hloop.
    destruct Htf as [[-> ->]|[-> ->]].
    - rewrite Tags_format_InfluxDB, Ek, map_cons, concat_empty_sep_cons.
      replace (map (influx_item (kvs t)) ks)
        with (map (fun b => "," +:+ b) (map body ks))
        by (by rewrite map_map).
      change (influx_item (kvs t) k1 +:+ ?x)
        with (String ","%char (body k1 +:+ x)).
      unfold TagFormat_split.
      change (Z.of_nat (String.length (String ","%char ?x)) =? 0) with false.
      change (InfluxDB =? InfluxDB) with true. cbv iota.
      rewrite slice_from_1. cbn [mbind result_bind]. cbv zeta.
      rewrite Split_leading_commas by done.
      change (body k1 :: map body ks) with (map body (k1 :: ks)).
      rewrite length_map. exact Hloop.
    - rewrite Tags_format_Datadog by (rewrite Ek; done). rewrite Ek.
      change (map (datadog_item (kvs t)) (k1 :: ks))
        with (body k1 :: map body ks).
      change ("|#" +:+ ?x) with (String "|"%char (String "#"%char x)).
      unfold TagFormat_split.
      change (Z.of_nat (String.length (String "|"%char ?x)) =? 0) with false.
      change (Datadog =? InfluxDB) with false.
      change (Datadog =? Datadog) with true. cbv iota.
      rewrite slice_from_2. cbn [mbind result_bind]. cbv zeta.
      rewrite Split_joined by done.
      change (body k1 :: map body ks) with (map body (k1 :: ks)).
      rewrite length_map. exact Hloop. }
  split; [exact Hmain|].
  intros Hwf. rewrite Hmain, Tags_clone_spec, clone_kvs_wf by done.
  by destruct t.
Qed.

Lemma split_format_round_trip_witness :
  TagFormat_split Datadog
    (Tags_format (mkTags (pairs_kvs ∅ ["host"; "x"; "env"; "y"])
                         (pairs_keys ["host"; "x"; "env"; "y"])) Datadog)
  = Ok (mkTags (pairs_kvs ∅ ["host"; "x"; "env"; "y"])
               (pairs_keys ["host"; "x"; "env"; "y"])).
Proof.
  refine (proj2 (split_format_round_trip _ Datadog ":"%char _ _ _)
            (Tags_wf_pairs _)).
  - right. by split.
  - cbn [keys pairs_keys]. repeat constructor.
  - cbn [keys pairs_keys]. repeat constructor.
Defined.

(** X5: [split] returns the empty set on the empty string and for any
    dialect other than the two known ones.  Otherwise it drops the first
    byte (the first two for Datadog, panicking on a string of one byte)
    without looking at it, cuts the rest at the commas, and returns one key
    per piece exactly when every piece holds the key-value separator; a
    single piece without it makes the call panic with an index out of
    range. *)
Theorem split_returns_iff_every_piece_has_separator
    (tf : TagFormat) (c c' : ascii) (s : string) :
  TagFormat_split tf "" = Ok emptyTags
  /\ (tf <> InfluxDB -> tf <> Datadog -> TagFormat_split tf s = Ok emptyTags)
  /\ TagFormat_split Datadog (String c "") = Panic panic_slice
  /\ (Exists (fun p => free_of "="%char p = true) (Split s ","%char) <->
      TagFormat_split InfluxDB (String c s) = Panic panic_index)
  /\ (Forall (fun p => free_of "="%char p = false) (Split s ","%char) <->
      exists t, TagFormat_split InfluxDB (String c s) = Ok t
                /\ length (keys t) = length (Split s ","%char))
  /\ (Exists (fun p => free_of ":"%char p = true) (Split s ","%char) <->
      TagFormat_split Datadog (String c (String c' s)) = Panic panic_index)
  /\ (Forall (fun p => free_of ":"%char p = false) (Split s ","%char) <->
      exists t, TagFormat_split Datadog (String c (String c' s)) = Ok t
                /\ length (keys t) = length (Split s ","%char)).
Proof.
  assert (TagFormat_split InfluxDB (String c s)
          = split_loop "="%char (Split s ","%char) 0 ∅
                       (replicate (length (Split s ","%char)) "")) as HI.
  { unfold TagFormat_split.
    change (Z.of_nat (String.length (String c s)) =? 0) with false.
    change (InfluxDB =? InfluxDB) with true. cbv iota.
    by rewrite slice_from_1. }
  assert (TagFormat_split Datadog (String c (String c' s))
          = split_loop ":"%char (Split s ","%char) 0 ∅
                       (replicate (length (Split s ","%char)) "")) as HD.
  { unfold TagFormat_split.
    change (Z.of_nat (String.length (String c (String c' s))) =? 0) with false.
    change (Datadog =? InfluxDB) with false.
    change (Datadog =? Datadog) with true. cbv iota.
    by rewrite slice_from_2. }
  assert (forall sep,
    (Exists (fun p => free_of sep p = true) (Split s ","%char) <->
     split_loop sep (Split s ","%char) 0 ∅
                (replicate (length (Split s ","%char)) "") = Panic panic_index)
    /\ (Forall (fun p => free_of sep p = false) (Split s ","%char) <->
        exists t, split_loop sep (Split s ","%char) 0 ∅
                    (replicate (length (Split s ","%char)) "") = Ok t
                  /\ length (keys t) = length (Split s ","%char))) as Hloop.
  { intros sep.
    pose proof (split_loop_panics sep (Split s ","%char)) as Hp.
    pose proof (split_loop_returns sep (Split s ","%char) 0 ∅ [] eq_refl) as Hr.
    cbn [app Nat.add] in Hr. change (Z.of_nat 0) with 0 in Hr.
    destruct (not_free_dichotomy sep (Split s ","%char)) as [Hex|Hall].
    - split; split.
      + intros _. by apply Hp.
      + done.
      + intros Hall. destruct (Hr Hall) as (t & Ht & _).
        rewrite (Hp Hex) in Ht. done.
      + intros (t & Ht & _). rewrite (Hp Hex) in Ht. done.
    - destruct (Hr Hall) as (t & Ht & Hlen). split; split.
      + intros Hex. rewrite (Hp Hex) in Ht. done.
      + intros Hpanic. rewrite Hpanic in Ht. done.
      + intros _. by exists t.
      + done. }
  rewrite HI, HD. split_and!.
  - reflexivity.
  - intros H1 H2. unfold TagFormat_split.
    destruct (_ =? 0); [done|].
    apply Z.eqb_neq in H1, H2. by rewrite H1, H2.
  - reflexivity.
  - apply Hloop.
  - apply Hloop.
  - apply Hloop.
  - apply Hloop.
Qed.

End SplitExtras.

(** ** Options *)

Section OptionExtras.

Lemma Tags_append_extends (t o : Tags) :
  keys t `prefix_of` keys (Tags_append t o)
  /\ (forall k v, kvs t !! k = Some v -> kvs (Tags_append t o) !! k = Some v).
Proof.
  unfold Tags_append.
  destruct (append_fold (kvs o) (keys o) t)
    as (added & Hkeys & _ & _ & Hin & Hval).
  split.
  - rewrite Hkeys. by apply prefix_app_r.
  - intros k v Hk. rewrite Hval. rewrite decide_False; [done|].
    intros H. apply Hin in H as [_ H]. congruence.
Qed.

(** One option either leaves the tag store alone or appends a tag set to
    the configuration's tags. *)
Lemma apply_option_tags (o : Option) (conf conf' : config) (w w' : world)
    (tl : loc) (t : Tags) :
  apply_option o conf w = (w', Ok conf') ->
  Client_Tags (cfg_Client conf) = Some tl ->
  tagsHeap w !! tl = Some t ->
  exists o', tagsHeap w' = <[tl := Tags_append t o']> (tagsHeap w).
Proof.
  intros Hrun Htl Ht.
  assert (tagsHeap w = <[tl := Tags_append t emptyTags]> (tagsHeap w)) as Hsame.
  { by rewrite Tags_append_empty, insert_id. }
  destruct o; cbn [apply_option] in Hrun; unfold mret, M_ret in Hrun;
    try (injection Hrun as <- _; by exists emptyTags).
  destruct (Z.of_nat (length tags) =? 0).
  { injection Hrun as <- _. by exists emptyTags. }
  unfold mbind, M_bind, lift, load_tags, store_tags in Hrun.
  destruct (newTags tags) as [nt|]; [|done].
  rewrite Htl, Ht in Hrun. cbn in Hrun.
  injection Hrun as <- _. by exists nt.
Qed.

(** X6: applying options never removes or changes a tag the configuration
    already has: afterwards the old keys come first in the same order with
    their old values, whatever [CommonTags] options were applied (a
    [CommonTags] for a key already present does not replace it); a tag set
    whose key list matches its map keeps doing so, and no other tag set in
    memory is touched. *)
Theorem options_keep_existing_tags (opts : list Option) (conf conf' : config)
    (w w' : world) (tl : loc) (t : Tags) :
  apply_options opts conf w = (w', Ok conf') ->
  Client_Tags (cfg_Client conf) = Some tl ->
  tagsHeap w !! tl = Some t ->
  exists t',
    tagsHeap w' !! tl = Some t'
    /\ keys t `prefix_of` keys t'
    /\ (forall k v, kvs t !! k = Some v -> kvs t' !! k = Some v)
    /\ (Tags_wf t -> Tags_wf t')
    /\ (forall l, l <> tl -> tagsHeap w' !! l = tagsHeap w !! l).
Proof.
  revert conf w t. induction opts as [|o opts IH]; intros conf w t Hrun Htl Ht.
  - cbn in Hrun. injection Hrun as <- _. exists t. by split_and!.
  - cbn [apply_options] in Hrun. unfold mbind at 1, M_bind at 1 in Hrun.
    destruct (apply_option o conf w) as [w1 [conf1|msg]] eqn:E; [|done].
    destruct (apply_option_tags o conf conf1 w w1 tl t E Htl Ht) as [o' Hw1].
    destruct (apply_option_frame o conf w) as [_ Hptr].
    rewrite E in Hptr. specialize (Hptr conf1 eq_refl).
    destruct (IH conf1 w1 (Tags_append t o') Hrun)
      as (t' & Ht' & Hpre & Hval & Hwf & Hother).
    { congruence. }
    { rewrite Hw1. apply lookup_insert_eq. }
    destruct (Tags_append_extends t o') as [Hpre1 Hval1].
    exists t'. split_and!.
    + done.
    + by etrans.
    + intros k v Hk. by apply Hval, Hval1.
    + intros H. by apply Hwf, Tags_wf_append.
    + intros l Hl. rewrite Hother by done. rewrite Hw1.
      by rewrite lookup_insert_ne.
Qed.

Lemma options_keep_existing_tags_witness :
  exists t',
    tagsHeap (apply_options [CommonTags_func ["a"; "2"; "b"; "3"]; Prefix "x"]
                (default_config (Some 0%nat)) Ex.w0).1 !! 0%nat = Some t'
    /\ kvs t' !! "a" = Some "1".
Proof.
  destruct (options_keep_existing_tags
              [CommonTags_func ["a"; "2"; "b"; "3"]; Prefix "x"]
              (default_config (Some 0%nat))
              (mkConfig (cfg_Conn (default_config None))
                        (mkClientConfig false f32_one "x." (Some 0%nat)))
              Ex.w0
              (apply_options [CommonTags_func ["a"; "2"; "b"; "3"]; Prefix "x"]
                 (default_config (Some 0%nat)) Ex.w0).1
              0%nat (mkTags {[ "a" := "1" ]} ["a"]))
    as (t' & Ht' & _ & Hval & _).
  - vm_compute. reflexivity.
  - reflexivity.
  - reflexivity.
  - exists t'. split; [exact Ht'|]. by apply Hval.
Defined.

End OptionExtras.

(** ** The facade *)

Section FacadeExtras.

(** A connection option changes [conf.Conn] only; the other options leave
    [conf.Conn] alone. *)
Lemma apply_option_conn (o : Option) (conf conf' : config) (w : world) :
  (apply_option o conf w).2 = Ok conf' ->
  cfg_Conn conf' = conn_update (cfg_Conn conf) o.
Proof.
  destruct o; cbn [apply_option conn_update]; unfold mret, M_ret; cbn [fst snd];
    try (intros Heq; by injection Heq as <-).
  destruct (Z.of_nat (length tags) =? 0); cbn [fst snd].
  { intros Heq. by injection Heq as <-. }
  unfold mbind, M_bind, lift, load_tags, store_tags.
  destruct (newTags tags); [|done].
  destruct (Client_Tags (cfg_Client conf)) as [l|]; [|done].
  destruct (tagsHeap w !! l); [|done].
  cbn. intros Heq. by injection Heq as <-.
Qed.

Lemma apply_options_conn (opts : list Option) :
  forall (conf conf' : config) (w : world),
  (apply_options opts conf w).2 = Ok conf' ->
  cfg_Conn conf' = Conn_after (cfg_Conn conf) opts.
Proof.
  induction opts as [|o opts IH]; intros conf conf' w.
  - cbn. intros Heq. by injection Heq as <-.
  - cbn [apply_options]. unfold mbind at 1, M_bind at 1.
    destruct (apply_option o conf w) as [w1 [conf1|msg]] eqn:E; [|done].
    intros Hrest. rewrite (IH conf1 conf' w1 Hrest).
    unfold Conn_after. cbn [foldl]. f_equal.
    apply (apply_option_conn o conf conf1 w). by rewrite E.
Qed.

(** A connection option does to the client half of a configuration, and
    to memory, what no option does. *)
Lemma apply_option_conn_option (o : Option) (conf : config) (w : world) :
  is_conn_option o = true ->
  exists conf', apply_option o conf w = (w, Ok conf')
                /\ cfg_Client conf' = cfg_Client conf.
Proof.
  destruct o; try done; intros _; eexists; split; reflexivity.
Qed.

(** The client half of the result, and memory, only depend on the client
    half of the configuration. *)
Lemma apply_option_client_only (o : Option) (conf1 conf2 : config) (w : world) :
  cfg_Client conf1 = cfg_Client conf2 ->
  (apply_option o conf1 w).1 = (apply_option o conf2 w).1
  /\ match (apply_option o conf1 w).2, (apply_option o conf2 w).2 with
     | Ok a, Ok b => cfg_Client a = cfg_Client b
     | Panic m1, Panic m2 => m1 = m2
     | _, _ => False
     end.
Proof.
  intros Heq.
  destruct o; cbn [apply_option]; unfold mret, M_ret, set_Conn, set_Client;
    cbn [fst snd cfg_Client]; rewrite ?Heq; try (by split).
  destruct (Z.of_nat (length tags) =? 0); cbn [fst snd]; [by split|].
  unfold mbind, M_bind, lift, load_tags, store_tags. rewrite ?Heq.
  destruct (newTags tags); [|by split].
  destruct (Client_Tags (cfg_Client conf2)) as [l|]; [|by split].
  destruct (tagsHeap w !! l); by split.
Qed.

Lemma apply_options_client_only (opts : list Option) :
  forall (conf1 conf2 : config) (w : world),
  cfg_Client conf1 = cfg_Client conf2 ->
  (apply_options opts conf1 w).1 = (apply_options (client_options opts) conf2 w).1
  /\ match (apply_options opts conf1 w).2,
           (apply_options (client_options opts) conf2 w).2 with
     | Ok a, Ok b => cfg_Client a = cfg_Client b
     | Panic m1, Panic m2 => m1 = m2
     | _, _ => False
     end.
Proof.
  induction opts as [|o opts IH]; intros conf1 conf2 w Heq.
  - cbn. by split.
  - cbn [client_options apply_options].
    destruct (is_conn_option o) eqn:Ho.
    + destruct (apply_option_conn_option o conf1 w Ho) as (c1 & Hrun & Hc1).
      erewrite bind_Ok by exact Hrun. apply IH. congruence.
    + cbn [apply_options].
      destruct (apply_option_client_only o conf1 conf2 w Heq) as [Hw Hr].
      destruct (apply_option o conf1 w) as [w1 [c1|m1]] eqn:E1,
               (apply_option o conf2 w) as [w2 [c2|m2]] eqn:E2;
        cbn [fst snd] in *; subst; try done.
      * rewrite (bind_Ok _ _ _ _ _ E1), (bind_Ok _ _ _ _ _ E2). by apply IH.
      * rewrite (bind_Panic _ _ _ _ _ E1), (bind_Panic _ _ _ _ _ E2). by split.
Qed.

(** X7: [Clone] ignores the options that configure the connection
    ([Address], [ErrorHandler], [FlushPeriod], [MaxPacketSize], [Network]
    and also [TagsFormat]): with them or without them it returns the same
    Client, leaves the same memory, or panics the same way. *)
Theorem Clone_ignores_connection_options (c : Client) (opts : list Option)
    (w : world) :
  Clone c opts w = Clone c (client_options opts) w.
Proof.
  unfold Clone.
  destruct (load_conn (c_conn c) w) as [w1 [cn|msg]] eqn:E;
    [|by rewrite !(bind_Panic _ _ _ _ _ E)].
  rewrite !(bind_Ok _ _ _ _ _ E).
  set (k := mkConfig (mkConnConfig "" None 0 0 "" 0)
                     (mkClientConfig false (c_rate c) (c_prefix c) (c_tags c))).
  destruct (apply_options_client_only opts k k w1 eq_refl) as [Hw Hr].
  destruct (apply_options opts k w1) as [w2 [c2|m2]] eqn:E1,
           (apply_options (client_options opts) k w1) as [w3 [c3|m3]] eqn:E2;
    cbn [fst snd] in *; subst; try done.
  - rewrite (bind_Ok _ _ _ _ _ E1), (bind_Ok _ _ _ _ _ E2). by rewrite Hr.
  - by rewrite (bind_Panic _ _ _ _ _ E1), (bind_Panic _ _ _ _ _ E2).
Qed.

(** X8: with options built by the option functions, [New] applies them in
    order to the defaults and calls [newConn] with the resulting connection
    configuration and mute flag; if [newConn] reports no error, [New]
    returns without error a Client with that connection, muted by the last
    [Mute] (not muted without one), with the rate of the last [SampleRate]
    (1 without one), the dotted [Prefix] arguments in order as prefix, the
    tag format of the last [TagsFormat] (none without one), and a tag set
    at a location unused before, which [newConn] finds holding
    [tags_after opts emptyTags]: the empty tag set to which the tag set of
    each [CommonTags] option, as [newTags] builds it from the arguments, has
    been appended by [Tags.append] in the order of the options. *)
Theorem New_applies_the_options
    (newConn : connConfig -> bool -> M (option loc * option error))
    (opts : list Option) (w w2 : world) (cp : option loc) :
  Forall built opts ->
  newConn (Conn_after (cfg_Conn (default_config None)) opts) (Muted_option opts)
          (mkWorld (<[fresh (dom (tagsHeap w)) := tags_after opts emptyTags]>
                      (tagsHeap w))
                   (connHeap w))
  = (w2, Ok (cp, None)) ->
  New newConn opts w
  = (w2, Ok (mkClient cp (Muted_option opts) (Rate_after f32_one opts)
                      (Prefix_options opts) (Some (fresh (dom (tagsHeap w))))
                      (Conn_TagFormat
                         (Conn_after (cfg_Conn (default_config None)) opts)),
             None))
  /\ tagsHeap w !! fresh (dom (tagsHeap w)) = None.
Proof.
  intros Hb Hnc. split; [|apply not_elem_of_dom, is_fresh].
  unfold New.
  set (l0 := fresh (dom (tagsHeap w))) in *.
  set (w1 := mkWorld (<[l0 := emptyTags]> (tagsHeap w)) (connHeap w)).
  destruct (apply_options_spec opts (default_config (Some l0)) w1 l0 emptyTags
              Hb eq_refl (lookup_insert_eq _ _ _))
    as (conf & Hrun & Htl & Hm & Hr & Hp).
  pose proof (apply_options_conn opts (default_config (Some l0)) conf w1) as Hc.
  rewrite Hrun in Hc. specialize (Hc eq_refl).
  change (cfg_Conn (default_config (Some l0)))
    with (cfg_Conn (default_config None)) in Hc.
  cbn [default_config cfg_Client Client_Muted Client_Rate Client_Prefix]
    in Hm, Hr, Hp.
  rewrite str_app_nil_l in Hp.
  erewrite bind_Ok by reflexivity. fold l0 w1.
  erewrite bind_Ok by exact Hrun.
  subst w1. cbn [tagsHeap connHeap]. rewrite insert_insert_eq.
  erewrite bind_Ok.
  2:{ rewrite Hc, Hm. exact Hnc. }
  cbn [fst snd c_conn c_muted]. unfold mret, M_ret.
  by rewrite Hm, Hr, Hp, Htl, Hc.
Qed.

Lemma New_applies_the_options_witness :
  exists w2 c,
    New (fun _ _ w => (w, Ok (None, None)))
        [Prefix "app"; Mute true; Mute false; TagsFormat Datadog] (mkWorld ∅ ∅)
    = (w2, Ok (c, None))
    /\ c_prefix c = "app." /\ c_muted c = false /\ c_tagFormat c = Datadog.
Proof.
  eexists _, _. split.
  - refine (proj1 (New_applies_the_options (fun _ _ w => (w, Ok (None, None)))
                     [Prefix "app"; Mute true; Mute false; TagsFormat Datadog]
                     (mkWorld ∅ ∅) _ None _ eq_refl)).
    by repeat constructor.
  - by split_and!.
Defined.

Lemma with_conn_frame (p : option loc) (f : conn -> conn) (w : world) :
  tagsHeap (with_conn p f w).1 = tagsHeap w
  /\ forall l, p <> Some l ->
       connHeap (with_conn p f w).1 !! l = connHeap w !! l.
Proof.
  unfold with_conn. destruct p as [l0|]; [|by split].
  destruct (connHeap w !! l0); [|by split].
  cbn [fst tagsHeap connHeap]. split; [done|].
  intros l Hl. rewrite lookup_insert_ne; [done|congruence].
Qed.

(** X9: a metric, a flush or a close never changes a tag set (the metric's
    own tags are merged into a set of the call, not into the Client's),
    and touches no connection but the Client's own, however the call
    ends. *)
Theorem operations_leave_tags_alone
    (render_value : Value -> string) (render_rate : float32 -> string)
    (c : Client) (op : Op) (w : world) :
  tagsHeap (run_op render_value render_rate c op w).1 = tagsHeap w
  /\ forall l, c_conn c <> Some l ->
       connHeap (run_op render_value render_rate c op w).1 !! l
       = connHeap w !! l.
Proof.
  destruct op; cbn [run_op];
    unfold Increment, Count, Gauge, Timing, Histogram, Unique, Flush, Close;
    try (destruct (skip c r); [by split|]);
    try (destruct (c_muted c); [by split|]);
    unfold mbind, M_bind, lift, load_tags;
    try (destruct (newTags metricTags); [|by split]);
    try (destruct (c_tags c) as [tl|]; [|by split]);
    try (destruct (tagsHeap w !! tl); [|by split]);
    unfold conn_metric, conn_gauge, conn_unique;
    apply with_conn_frame.
Qed.

(** X10: a metric called with an odd number of tag arguments panics
    exactly when the call is not skipped: on a muted Client, or when the
    sample draw skips the call, it returns as if nothing was wrong; in both
    cases nothing in memory changes. *)
Theorem odd_metric_tags_panic_unless_skipped
    (render_value : Value -> string) (render_rate : float32 -> string)
    (c : Client) (bucket : string)
    (n : Value) (metricTags : list string) (r : float32) (w : world) :
  Nat.odd (length metricTags) = true ->
  let outcome := if skip c r then Ok tt else Panic panic_odd_newTags in
  Count render_value render_rate c bucket n metricTags r w = (w, outcome)
  /\ Increment render_value render_rate c bucket metricTags r w = (w, outcome)
  /\ Gauge render_value render_rate c bucket n metricTags r w = (w, outcome)
  /\ Histogram render_value render_rate c bucket n metricTags r w = (w, outcome).
Proof.
  intros Hodd. cbv zeta.
  unfold Increment, Count, Gauge, Histogram.
  destruct (skip c r); [by split_and!|].
  unfold mbind, M_bind, lift. rewrite newTags_spec, Hodd. by split_and!.
Qed.

Lemma odd_metric_tags_panic_unless_skipped_witness :
  Count Ex.render_value Ex.render_rate Ex.parent "requests" (VInt 1) ["k"] 0 Ex.w0
  = (Ex.w0, Panic panic_odd_newTags)
  /\ Count Ex.render_value Ex.render_rate Ex.silent "requests" (VInt 1) ["k"] 0 Ex.w0
     = (Ex.w0, Ok tt).
Proof.
  split.
  - exact (proj1 (odd_metric_tags_panic_unless_skipped
                    Ex.render_value Ex.render_rate
                    Ex.parent "requests" (VInt 1) ["k"] 0 Ex.w0 eq_refl)).
  - exact (proj1 (odd_metric_tags_panic_unless_skipped
                    Ex.render_value Ex.render_rate
                    Ex.silent "requests" (VInt 1) ["k"] 0 Ex.w0 eq_refl)).
Defined.

End FacadeExtras.

Section CloneExtras.

Lemma Tags_wf_tags_after (opts : list Option) : forall t : Tags,
  Tags_wf t -> Tags_wf (tags_after opts t).
Proof.
  unfold tags_after.
  induction opts as [|o opts IH]; intros t Hwf; [done|].
  cbn [foldl]. apply IH. destruct o; try done. by apply Tags_wf_append.
Qed.

(** X11: [Clone] on a Client with a connection and a tag set (whose key
    list matches its map), with built options, returns a Client on the same
    connection whose tag set is a new object, not allocated before and
    distinct from the parent's, holding a copy equal to the parent's set as
    the call leaves it; its rate is the parent's unless a [SampleRate]
    option sets it, its tag format is the connection's, whatever the
    parent's own field or a [TagsFormat] option say; connections and all
    other tag sets are left as they were. *)
Theorem Clone_copies_the_tags (c : Client) (opts : list Option) (w : world)
    (l : loc) (cn : conn) (tl : loc) (t : Tags) :
  c_conn c = Some l -> connHeap w !! l = Some cn ->
  c_tags c = Some tl -> tagsHeap w !! tl = Some t -> Tags_wf t ->
  Forall built opts ->
  exists w' clone tl' t',
    Clone c opts w = (w', Ok clone)
    /\ c_conn clone = Some l
    /\ c_tags clone = Some tl'
    /\ tl' <> tl /\ tagsHeap w !! tl' = None
    /\ tagsHeap w' !! tl' = Some t' /\ tagsHeap w' !! tl = Some t'
    /\ c_rate clone = Rate_after (c_rate c) opts
    /\ c_tagFormat clone = conn_tagFormat cn
    /\ connHeap w' = connHeap w
    /\ (forall l', l' <> tl -> l' <> tl' ->
          tagsHeap w' !! l' = tagsHeap w !! l').
Proof.
  intros Hl Hcn Htl Ht Hwf Hb.
  pose proof (Clone_spec c opts w l cn tl t Hl Hcn Htl Ht Hb) as Hrun.
  cbv zeta in Hrun.
  set (t1 := tags_after opts t) in *.
  set (heap1 := <[tl := t1]> (tagsHeap w)) in *.
  assert (fresh (dom heap1) ∉ dom heap1) as Hfresh by apply is_fresh.
  assert (fresh (dom heap1) <> tl) as Hne.
  { intros Heq. apply Hfresh. rewrite Heq. apply elem_of_dom.
    unfold heap1. rewrite lookup_insert_eq. by eexists. }
  rewrite clone_kvs_wf in Hrun by (by apply Tags_wf_tags_after).
  eexists _, _, (fresh (dom heap1)), t1.
  split; [exact Hrun|]. cbn [c_conn c_tags c_rate c_tagFormat tagsHeap connHeap].
  split_and!; try done.
  - apply not_elem_of_dom. intros Hin. apply Hfresh. unfold heap1.
    rewrite dom_insert_L. set_solver.
  - rewrite lookup_insert_eq. by destruct t1.
  - rewrite lookup_insert_ne by done. unfold heap1. by rewrite lookup_insert_eq.
  - intros l' H1 H2. rewrite lookup_insert_ne by done.
    unfold heap1. by rewrite lookup_insert_ne.
Qed.

Lemma Clone_copies_the_tags_witness :
  exists w' clone tl' t',
    Clone Ex.parent [SampleRate 0x3F000000; TagsFormat InfluxDB] Ex.w0
    = (w', Ok clone)
    /\ c_tags clone = Some tl' /\ tl' <> 0%nat
    /\ tagsHeap w' !! tl' = Some t'
    /\ c_rate clone = 0x3F000000 /\ c_tagFormat clone = Datadog.
Proof.
  destruct (Clone_copies_the_tags Ex.parent
              [SampleRate 0x3F000000; TagsFormat InfluxDB] Ex.w0
              0%nat Ex.conn0 0%nat
              (mkTags (pairs_kvs ∅ ["a"; "1"]) (pairs_keys ["a"; "1"])))
    as (w' & clone & tl' & t' & Hrun & _ & Htl' & Hne & _ & Ht' & _ & Hr & Hf & _).
  - reflexivity.
  - reflexivity.
  - reflexivity.
  - vm_compute. reflexivity.
  - apply Tags_wf_pairs.
  - by repeat constructor.
  - exists w', clone, tl', t'. by split_and!.
Defined.

End CloneExtras.

Section MoreExtras.

Lemma append_present (m : gmap string string) (ks : list string) (t : Tags) :
  (forall k, k ∈ ks -> is_Some (kvs t !! k)) ->
  foldl (append_step m) t ks = t.
Proof.
  induction ks as [|k ks IH]; intros H; [reflexivity|].
  cbn [foldl]. unfold append_step at 2.
  destruct (H k) as [v Hv]; [by apply elem_of_cons; left|].
  rewrite Hv. apply IH. intros k' Hk'. apply H. by apply elem_of_cons; right.
Qed.

(** X12: merging a set whose keys the receiver all has changes nothing, so
    merging the same set a second time changes nothing: appending the same
    tags twice is appending them once. *)
Theorem Tags_append_twice_is_once (r o : Tags) :
  Tags_append (Tags_append r o) o = Tags_append r o
  /\ ((forall k, k ∈ keys o -> is_Some (kvs r !! k)) -> Tags_append r o = r).
Proof.
  split.
  - unfold Tags_append at 1. apply append_present.
    intros k Hk. fold (Tags_append r o). unfold Tags_append.
    destruct (append_fold (kvs o) (keys o) r)
      as (added & _ & _ & _ & Hin & Hval).
    rewrite Hval. destruct (decide (k ∈ added)) as [Ha|Ha]; [by eexists|].
    destruct (kvs r !! k) eqn:E; [by eexists|].
    exfalso. apply Ha, Hin. by split.
  - intros H. by apply append_present.
Qed.

(** X13: one trailing dot in the argument of [Prefix] makes no difference:
    [Prefix(p + ".")] and [Prefix(p)] do the same to a configuration when
    [p] does not end with a dot: both return the configuration with [p] and
    a dot appended to its prefix and every other field (the connection
    settings, the mute flag, the rate, the tag set) as it was, in the same
    store; and [Prefix("")] appends a lone dot, again changing nothing
    else. *)
Theorem Prefix_trailing_dot_is_optional (p : string) (conf : config) (w : world) :
  HasSuffix p "." = false ->
  apply_option (Prefix (p +:+ ".")) conf w = apply_option (Prefix p) conf w
  /\ apply_option (Prefix p) conf w
     = (w, Ok (mkConfig (cfg_Conn conf)
                 (mkClientConfig (Client_Muted (cfg_Client conf))
                    (Client_Rate (cfg_Client conf))
                    (Client_Prefix (cfg_Client conf) +:+ p +:+ ".")
                    (Client_Tags (cfg_Client conf)))))
  /\ apply_option (Prefix "") conf w
     = (w, Ok (mkConfig (cfg_Conn conf)
                 (mkClientConfig (Client_Muted (cfg_Client conf))
                    (Client_Rate (cfg_Client conf))
                    (Client_Prefix (cfg_Client conf) +:+ ".")
                    (Client_Tags (cfg_Client conf))))).
Proof.
  intros Hp. cbn [apply_option].
  rewrite TrimSuffix_app, (TrimSuffix_none p) by done.
  by split_and!.
Qed.

Lemma Prefix_trailing_dot_is_optional_witness :
  HasSuffix "http" "." = false
  /\ apply_option (Prefix "http.") (default_config None) Ex.w0
     = apply_option (Prefix "http") (default_config None) Ex.w0
  /\ apply_option (Prefix "http") (default_config None) Ex.w0
     = (Ex.w0, Ok (mkConfig (cfg_Conn (default_config None))
                     (mkClientConfig false f32_one "http." None))).
Proof.
  split; [reflexivity|].
  destruct (Prefix_trailing_dot_is_optional "http" (default_config None)
              Ex.w0 eq_refl) as (Hsame & Hdo & _).
  split; [exact Hsame|exact Hdo].
Defined.

End MoreExtras.
